(** * Inverter elimination on a netlist DAG

    A shallow embedding of [src/blif-translator/dag_inv_eliminator.py]
    (class [InvEliminator]) together with a model of the DAG container it
    drives, and the properties of the pass.

    Layout:
    - the gate record, exceptions and printed lines shared by everything;
    - [Container]: the interface the pass calls into ([dag.xxx(...)]);
    - [Section Pass]: the pass itself, written once over any [Container],
      in a small state-and-exception monad (the DAG is mutated in place and
      an exception leaves earlier mutations in place);
    - [Module Netlist]: the container modelled from its specification;
    - [Module Sim]: the boolean function of a netlist;
    - [Module Wf], [Module Circuits]: well-formed netlists and the circuits
      of the scenarios;
    - [Section Notions], [Module Inv]: what the statements are written with;
    - lemmas on the pass over any container, on the modelled container, and
      on the rewrite of a well-formed netlist;
    - the properties ([Section PassClaims], [Section NetlistClaims]) and the
      scenarios run ([Section Scenarios]);
    - further properties of the sweep: what it prints, raises and returns
      ([Section RunNotions], [Section PassExtras]) and what it keeps of the
      netlist ([Module Keep], [Module Corners], [Section NetlistExtras],
      [Section ExtraScenarios]). *)

From Stdlib Require Import ZArith.
From stdpp Require Import base decidable option list gmap strings pretty.

Open Scope Z_scope.

(** ** Shared data *)

Definition wire := string.
Definition gate_id := string.

(** A node of [dag.graph]: the attribute dictionary of a gate.  The pass reads
    the keys ["gate_func"], ["inputs"] and ["outputs"]; [inverted] is the
    invert-on-input attribute, kept per gate as the set of inverted input wire
    names (pins are named by their wire, see [invert_input_wire]). *)
Record gate := Gate {
  gate_func : string;
  inputs : list wire;
  outputs : list wire;
  inverted : gset wire
}.

Global Instance gate_eq_dec : EqDecision gate.
Proof. solve_decision. Defined.

(** The container-level contract violations. *)
Inductive container_error :=
  | DuplicateWireError
  | DanglingGateError
  | EdgeNotFoundError
  | GateStillConnectedError.

(** What a Python statement of the pass can raise: a failed subscript of a
    dict or a list, the failed [assert] (the structural-integrity error), or
    an error coming out of a container call. *)
Inductive exn :=
  | KeyError
  | IndexError
  | AssertionError
  | ContainerError (e : container_error).

Global Instance container_error_eq_dec : EqDecision container_error.
Proof. solve_decision. Defined.
Global Instance exn_eq_dec : EqDecision exn.
Proof. solve_decision. Defined.

(** The three [print] calls of the pass, kept structured; [render] gives the
    text of the f-string. *)
Inductive line :=
  | RemoveInvLine (inv_gate_id : gate_id)
  | RenameLine (in_wire : wire) (load_gate_id : gate_id)
  | SummaryLine (total_inv : Z).

Definition render (l : line) : string :=
  match l with
  | RemoveInvLine g => "DAG-Transform: Remove INV gate: " +:+ g
  | RenameLine w g =>
      "DAG-Transform: Both direct and inverted versions of '" +:+ w +:+
      "' are connected to gate " +:+ g +:+ ". Renaming inverted wire."
  | SummaryLine n =>
      "DAG-Transform Summary: Total " +:+ pretty n +:+
      " inverter gates eliminated"
  end.

(** The value of a Python call expression, as far as the pass needs it. *)
Inductive py_value :=
  | PyNone
  | PyInt (n : Z).

(** ** The container interface

    Every [dag.xxx] the pass uses.  Queries are functions of the container
    state; an edit either fails with a [container_error], leaving the state as
    it was, or yields the new state. *)
Class Container (DAG : Type) := {
  nodes : DAG → gate_id → option gate;
  get_topo_sorted_gate_id_list : DAG → list gate_id;
  is_in_port : DAG → wire → bool;
  is_out_port : DAG → wire → bool;
  get_wire_fanin_gate_ids : DAG → wire → list gate_id;
  get_wire_fanout_gate_ids : DAG → wire → list gate_id;
  uniqufy_wire_name : DAG → string → wire;
  get_wire_base_name : DAG → wire → string;
  remove_wire : gate_id → gate_id → DAG → container_error + DAG;
  remove_gate : gate_id → DAG → container_error + DAG;
  add_wire : wire → gate_id → gate_id → DAG → container_error + DAG;
  replace_output_wire : gate_id → wire → wire → DAG → container_error + DAG;
  replace_input_wire : gate_id → wire → wire → DAG → container_error + DAG;
  invert_input_wire : gate_id → wire → DAG → container_error + DAG
}.

(** ** The pass *)

Section Pass.
Context {DAG : Type} `{!Container DAG}.

(** The mutable world of one run: the DAG object and what was printed. *)
Record world := World { w_dag : DAG; w_stdout : list line }.

Inductive outcome (A : Type) :=
  | Return (a : A)
  | Raise (e : exn).
Global Arguments Return {A} a.
Global Arguments Raise {A} e.

Definition M (A : Type) : Type := world → outcome A * world.

Definition ret {A} (a : A) : M A := λ w, (Return a, w).

Definition bind {A B} (m : M A) (k : A → M B) : M B := λ w,
  match m w with
  | (Return a, w') => k a w'
  | (Raise e, w') => (Raise e, w')
  end.

Definition raise {A} (e : exn) : M A := λ w, (Raise e, w).

Definition get_dag : M DAG := λ w, (Return (w_dag w), w).

Definition print (l : line) : M unit := λ w,
  (Return tt, World (w_dag w) (w_stdout w ++ [l])).

(** A container edit called as a statement. *)
Definition call (op : DAG → container_error + DAG) : M unit := λ w,
  match op (w_dag w) with
  | inl e => (Raise (ContainerError e), w)
  | inr d => (Return tt, World d (w_stdout w))
  end.

(** [dag.graph.nodes[gate_id]] *)
Definition node (g : gate_id) : M gate := λ w,
  match nodes (w_dag w) g with
  | Some x => (Return x, w)
  | None => (Raise KeyError, w)
  end.

(** [l[0]] *)
Definition first {A} (l : list A) : M A :=
  match l with
  | x :: _ => ret x
  | [] => raise IndexError
  end.

Definition assert (b : bool) : M unit :=
  if b then ret tt else raise AssertionError.

Definition when (b : bool) (m : M unit) : M unit :=
  if b then m else ret tt.

Fixpoint for_each {A} (l : list A) (body : A → M unit) : M unit :=
  match l with
  | [] => ret tt
  | x :: l' => bind (body x) (λ _, for_each l' body)
  end.

Notation "x <~ m ;; k" := (bind m (λ x, k))
  (at level 100, m at next level, right associativity).
Notation "m >> k" := (bind m (λ _, k))
  (at level 100, right associativity).

(** [self.debug_level] *)
Variable debug_level : Z.

Definition is_target_gate (gate_id : gate_id) : M bool :=
  gate <~ node gate_id ;;
  ret (bool_decide (gate_func gate = "inv1")).

(** The condition of the [if] that skips inverters on the boundary. *)
Definition touches_port (dag : DAG) (in_wire out_wire : wire) : bool :=
  is_in_port dag in_wire || is_out_port dag in_wire
  || is_out_port dag out_wire.

(** The body of the second [for load_gate_id in load_gate_ids] loop. *)
Definition reconnect (in_wire out_wire : wire)
    (driver_gate_id load_gate_id : gate_id) : M unit :=
  load_gate <~ node load_gate_id ;;
  if bool_decide (in_wire ∈ inputs load_gate) then
    when (2 <=? debug_level) (print (RenameLine in_wire load_gate_id)) >>
    dag <~ get_dag ;;
    let inverted_wire_name :=
      uniqufy_wire_name dag (get_wire_base_name dag out_wire +:+ "_inv") in
    call (replace_output_wire driver_gate_id out_wire inverted_wire_name) >>
    call (add_wire inverted_wire_name driver_gate_id load_gate_id) >>
    call (replace_input_wire load_gate_id out_wire inverted_wire_name) >>
    call (invert_input_wire load_gate_id inverted_wire_name)
  else
    call (add_wire in_wire driver_gate_id load_gate_id) >>
    call (replace_input_wire load_gate_id out_wire in_wire) >>
    call (invert_input_wire load_gate_id in_wire).

(** Everything after the port check. *)
Definition eliminate (inv_gate_id : gate_id) (in_wire out_wire : wire)
    : M Z :=
  when (2 <=? debug_level) (print (RemoveInvLine inv_gate_id)) >>
  dag <~ get_dag ;;
  let driver_gate_ids := get_wire_fanin_gate_ids dag in_wire in
  assert (bool_decide (length driver_gate_ids = 1%nat)) >>
  driver_gate_id <~ first driver_gate_ids ;;
  let load_gate_ids := get_wire_fanout_gate_ids dag out_wire in
  call (remove_wire driver_gate_id inv_gate_id) >>
  for_each load_gate_ids (λ load_gate_id,
    call (remove_wire inv_gate_id load_gate_id)) >>
  call (remove_gate inv_gate_id) >>
  for_each load_gate_ids (reconnect in_wire out_wire driver_gate_id) >>
  ret 1.

Definition run_xform_inv_elimination (inv_gate_id : gate_id) : M Z :=
  inv_gate <~ node inv_gate_id ;;
  in_wire <~ first (inputs inv_gate) ;;
  out_wire <~ first (outputs inv_gate) ;;
  dag <~ get_dag ;;
  if touches_port dag in_wire out_wire then ret 0
  else eliminate inv_gate_id in_wire out_wire.

(** The [for gate_id in ...] loop of [apply], over the list the container
    handed out before the first rewrite; [total_inv] is the accumulator. *)
Fixpoint apply_loop (ids : list gate_id) (total_inv : Z) : M Z :=
  match ids with
  | [] => ret total_inv
  | gate_id :: rest =>
      target <~ is_target_gate gate_id ;;
      if target : bool then
        n <~ run_xform_inv_elimination gate_id ;;
        apply_loop rest (total_inv + n)
      else apply_loop rest total_inv
  end.

(** [apply] has no [return] statement: its value is [None]. *)
Definition apply : M py_value :=
  dag <~ get_dag ;;
  total_inv <~ apply_loop (get_topo_sorted_gate_id_list dag) 0 ;;
  when (1 <=? debug_level) (print (SummaryLine total_inv)) >>
  ret PyNone.

End Pass.

(** ** The container, modelled from its specification *)

Module Netlist.

(** One driver-to-load connection of a wire. *)
Record conn := Conn { c_wire : wire; c_driver : gate_id; c_load : gate_id }.

Global Instance conn_eq_dec : EqDecision conn.
Proof. solve_decision. Defined.

(** Modelled from the spec: the DAG container, the class of the [dag] object
    (it is defined outside [dag_inv_eliminator.py]).  It owns the gates, the
    connections (each wire is a name carried from one driver to its loads),
    the wire names ever registered (removing the last connection of a wire
    does not delete its name) and the two port classifications. *)
Record dag := Dag {
  gates : gmap gate_id gate;
  conns : list conn;
  wire_names : gset wire;
  in_ports : list wire;
  out_ports : list wire
}.

Definition with_gates (d : dag) (gs : gmap gate_id gate) : dag :=
  Dag gs (conns d) (wire_names d) (in_ports d) (out_ports d).

Definition with_conns (d : dag) (cs : list conn) : dag :=
  Dag (gates d) cs (wire_names d) (in_ports d) (out_ports d).

Definition with_name (d : dag) (w : wire) : dag :=
  Dag (gates d) (conns d) ({[w]} ∪ wire_names d) (in_ports d) (out_ports d).

Definition gate_ids (d : dag) : list gate_id := (map_to_list (gates d)).*1.

(** Modelled from the spec: [is_input_port], [is_output_port]. *)
Definition is_in_port (d : dag) (w : wire) : bool := bool_decide (w ∈ in_ports d).
Definition is_out_port (d : dag) (w : wire) : bool := bool_decide (w ∈ out_ports d).

(** Modelled from the spec: [fanin_gate_ids], the gates driving the wire (the
    driver ends of its connections, each once), and [fanout_gate_ids], the
    gates whose input pins consume the wire. *)
Definition get_wire_fanin_gate_ids (d : dag) (w : wire) : list gate_id :=
  remove_dups (c_driver <$> filter (λ c, c_wire c = w) (conns d)).

Definition get_wire_fanout_gate_ids (d : dag) (w : wire) : list gate_id :=
  (filter (λ p : gate_id * gate, w ∈ inputs p.2) (map_to_list (gates d))).*1.

(** Modelled from the spec: [topologically_sorted_gate_ids].  Kahn's
    algorithm over the connections: repeatedly emit the first remaining gate
    none of whose drivers remains.  Every gate id is produced exactly once;
    should no gate be ready (a cycle) the first remaining one is emitted. *)
Definition ready (cs : list conn) (remaining : list gate_id) (g : gate_id) : bool :=
  forallb (λ c, bool_decide (c_load c = g → c_driver c ∉ remaining)) cs.

Fixpoint topo_go (cs : list conn) (fuel : nat) (remaining : list gate_id)
    : list gate_id :=
  match fuel, remaining with
  | S fuel', g0 :: _ =>
      let g := default g0 (List.find (ready cs remaining) remaining) in
      g :: topo_go cs fuel' (filter (λ x, x ≠ g) remaining)
  | _, _ => remaining
  end.

Definition get_topo_sorted_gate_id_list (d : dag) : list gate_id :=
  topo_go (conns d) (length (gate_ids d)) (gate_ids d).

(** Every wire name present anywhere in the graph. *)
Definition gate_wires (g : gate) : gset wire :=
  list_to_set (inputs g) ∪ list_to_set (outputs g).

Definition all_wire_names (d : dag) : gset wire :=
  wire_names d ∪ list_to_set (in_ports d) ∪ list_to_set (out_ports d)
  ∪ list_to_set (c_wire <$> conns d)
  ∪ ⋃ (gate_wires <$> (map_to_list (gates d)).*2).

(** Modelled from the spec: [uniquify_wire_name] returns [base] if unused,
    else the first unused of [base_2], [base_3], ... *)
Definition suffixed (base : string) (k : nat) : wire :=
  base +:+ "_" +:+ pretty k.

Fixpoint uniquify_from (used : gset wire) (base : string) (k fuel : nat) : wire :=
  match fuel with
  | O => suffixed base k
  | S fuel' =>
      if decide (suffixed base k ∈ used)
      then uniquify_from used base (S k) fuel'
      else suffixed base k
  end.

Definition uniqufy_wire_name (d : dag) (base : string) : wire :=
  let used := all_wire_names d in
  if decide (base ∈ used) then uniquify_from used base 2 (size used) else base.

(** Modelled from the spec: [get_wire_base_name] strips a uniquification
    suffix, an underscore followed by decimal digits at the end of the name. *)
Definition is_digit (c : Ascii.ascii) : bool :=
  let n := Ascii.nat_of_ascii c in
  bool_decide (48 ≤ n ≤ 57)%nat.

Fixpoint drop_digits (l : list Ascii.ascii) : list Ascii.ascii :=
  match l with
  | c :: l' => if is_digit c then drop_digits l' else l
  | [] => []
  end.

Definition get_wire_base_name (d : dag) (w : wire) : string :=
  let r := rev (String.list_ascii_of_string w) in
  match drop_digits r with
  | c :: body =>
      if bool_decide (c = Ascii.ascii_of_nat 95 ∧ body ≠ [] ∧ drop_digits r ≠ r)
      then String.string_of_list_ascii (rev body) else w
  | [] => w
  end.

(** Modelled from the spec: [remove_wire] disconnects driver from load and
    fails with [EdgeNotFoundError] if they are not connected. *)
Definition joins (driver load : gate_id) (c : conn) : Prop :=
  c_driver c = driver ∧ c_load c = load.

Global Instance joins_dec driver load c : Decision (joins driver load c).
Proof. unfold joins. apply _. Defined.

Definition remove_wire (driver load : gate_id) (d : dag) : container_error + dag :=
  if decide (Exists (joins driver load) (conns d))
  then inr (with_conns d (filter (λ c, ¬ joins driver load c) (conns d)))
  else inl EdgeNotFoundError.

(** Modelled from the spec: [remove_gate] deletes a gate that has no remaining
    connection and fails with [GateStillConnectedError] otherwise. *)
Definition touches (g : gate_id) (c : conn) : Prop :=
  c_driver c = g ∨ c_load c = g.

Global Instance touches_dec g c : Decision (touches g c).
Proof. unfold touches. apply _. Defined.

Definition remove_gate (g : gate_id) (d : dag) : container_error + dag :=
  if decide (Exists (touches g) (conns d))
  then inl GateStillConnectedError
  else inr (with_gates d (delete g (gates d))).

(** Modelled from the spec: [add_wire] fails with [DuplicateWireError] if the
    name already names a wire with a different driver, with
    [DanglingGateError] if either gate does not exist, and otherwise connects
    driver to load under that name. *)
Definition other_driver (name : wire) (driver : gate_id) (c : conn) : Prop :=
  c_wire c = name ∧ c_driver c ≠ driver.

Global Instance other_driver_dec name driver c : Decision (other_driver name driver c).
Proof. unfold other_driver. apply _. Defined.

Definition add_wire (name : wire) (driver load : gate_id) (d : dag)
    : container_error + dag :=
  if decide (Exists (other_driver name driver) (conns d))
  then inl DuplicateWireError
  else if decide (is_Some (gates d !! driver) ∧ is_Some (gates d !! load))
  then inr (with_name (with_conns d (conns d ++ [Conn name driver load])) name)
  else inl DanglingGateError.

(** Renaming every pin of a list that carries [old]; positions are kept. *)
Definition rename (old new : wire) (l : list wire) : list wire :=
  (λ w, if decide (w = old) then new else w) <$> l.

Definition rename_conn (g : gate_id) (old new : wire) (c : conn) : conn :=
  if decide (c_driver c = g ∧ c_wire c = old)
  then Conn new (c_driver c) (c_load c) else c.

(** Modelled from the spec: [replace_output_wire] renames the gate's output
    pin and keeps the connections to its loads under the new name. *)
Definition replace_output_wire (g : gate_id) (old new : wire) (d : dag)
    : container_error + dag :=
  inr (with_name
         (with_conns
            (with_gates d
               (alter (λ x, Gate (gate_func x) (inputs x)
                                 (rename old new (outputs x)) (inverted x))
                      g (gates d)))
            (rename_conn g old new <$> conns d))
         new).

(** Modelled from the spec: [replace_input_wire] rewires the input pin of the
    gate from one wire name to another, keeping its position. *)
Definition replace_input_wire (g : gate_id) (old new : wire) (d : dag)
    : container_error + dag :=
  inr (with_name
         (with_gates d
            (alter (λ x, Gate (gate_func x) (rename old new (inputs x))
                              (outputs x) (inverted x))
                   g (gates d)))
         new).

(** Modelled from the spec: [invert_input_wire] sets the invert-on-input
    attribute of the named pin; setting it twice is the same as once. *)
Definition invert_input_wire (g : gate_id) (w : wire) (d : dag)
    : container_error + dag :=
  inr (with_gates d
         (alter (λ x, Gate (gate_func x) (inputs x) (outputs x)
                           ({[w]} ∪ inverted x))
                g (gates d))).

Global Instance container : Container dag :=
  Build_Container dag (λ d g, gates d !! g)
    get_topo_sorted_gate_id_list is_in_port is_out_port
    get_wire_fanin_gate_ids get_wire_fanout_gate_ids
    uniqufy_wire_name get_wire_base_name
    remove_wire remove_gate add_wire
    replace_output_wire replace_input_wire invert_input_wire.

End Netlist.

(** ** What a netlist computes

    The value of every wire under an assignment to the input ports: gates are
    evaluated in topological order, an input pin reads its wire through the
    invert-on-input attribute, and the outputs of the gate function are
    written to its output wires. *)

Module Sim.
Import Netlist.

(** Modelled from the spec: the meaning of function labels.  The pass names
    only [inv1]; the two-input labels serve the circuits used below. *)
Definition gate_sem (func : string) (ins : list bool) : option (list bool) :=
  match ins with
  | [a] =>
      if bool_decide (func = "inv1") then Some [negb a]
      else if bool_decide (func = "buf1") then Some [a]
      else None
  | [a; b] =>
      if bool_decide (func = "and2") then Some [a && b]
      else if bool_decide (func = "or2") then Some [a || b]
      else if bool_decide (func = "xor2") then Some [xorb a b]
      else None
  | _ => None
  end.

Definition pin_value (env : gmap wire bool) (g : gate) (w : wire) : option bool :=
  b ← env !! w;
  Some (if decide (w ∈ inverted g) then negb b else b).

Fixpoint write_outputs (env : gmap wire bool) (ws : list wire) (vs : list bool)
    : option (gmap wire bool) :=
  match ws, vs with
  | [], [] => Some env
  | w :: ws', v :: vs' => write_outputs (<[w := v]> env) ws' vs'
  | _, _ => None
  end.

Definition eval_gate (env : gmap wire bool) (g : gate) : option (gmap wire bool) :=
  ins ← mapM (pin_value env g) (inputs g);
  outs ← gate_sem (gate_func g) ins;
  write_outputs env (outputs g) outs.

Fixpoint eval_gates (d : dag) (ids : list gate_id) (env : gmap wire bool)
    : option (gmap wire bool) :=
  match ids with
  | [] => Some env
  | id :: rest =>
      g ← gates d !! id;
      env' ← eval_gate env g;
      eval_gates d rest env'
  end.

(** The values on the output ports, in the order of [out_ports]. *)
Definition simulate (d : dag) (assignment : wire → bool) : option (list bool) :=
  let env0 := list_to_map ((λ w, (w, assignment w)) <$> in_ports d) in
  env ← eval_gates d (get_topo_sorted_gate_id_list d) env0;
  mapM (λ w, env !! w) (out_ports d).

End Sim.

(** ** Building netlists, and well-formedness *)

Module Wf.
Import Netlist.

(** The connections the pins of the gates call for: one from every gate that
    has the wire as an output pin to every gate that has it as an input pin. *)
Definition pin_conns (gs : list (gate_id * gate)) : list conn :=
  ld ← gs; w ← inputs ld.2; dr ← gs;
  if decide (w ∈ outputs dr.2) then [Conn w dr.1 ld.1] else [].

Definition netlist (gs : list (gate_id * gate)) (ins outs : list wire) : dag :=
  Dag (list_to_map gs) (pin_conns gs)
      (list_to_set (ins ++ outs) ∪ ⋃ (gate_wires <$> gs.*2)) ins outs.

Definition position (g : gate_id) (l : list gate_id) : nat :=
  default (length l) (fst <$> list_find (λ x, x = g) l).

(** Every connection is backed by an output pin of its driver and an input pin
    of its load. *)
Definition conn_backed (d : dag) (c : conn) : Prop :=
  match gates d !! c_driver c, gates d !! c_load c with
  | Some gd, Some gl => c_wire c ∈ outputs gd ∧ c_wire c ∈ inputs gl
  | _, _ => False
  end.

(** Every pin-to-pin relation has its connection. *)
Definition pins_connected (d : dag) : Prop :=
  map_Forall (λ dr gd,
    map_Forall (λ ld gl,
      Forall (λ w, w ∈ inputs gl → Conn w dr ld ∈ conns d) (outputs gd))
      (gates d))
    (gates d).

(** An inverter has one input pin and one output pin. *)
Definition inverters_unary (d : dag) : Prop :=
  map_Forall (λ _ x, gate_func x = "inv1" →
    length (inputs x) = 1%nat ∧ length (outputs x) = 1%nat) (gates d).

(** A wire consumed by a gate and not a port has exactly one driver. *)
Definition single_driver (d : dag) : Prop :=
  map_Forall (λ _ x,
    Forall (λ w, is_in_port d w = false → is_out_port d w = false →
                 length (get_wire_fanin_gate_ids d w) = 1%nat) (inputs x))
    (gates d).

(** The topological order puts the driver of every connection before its
    load: the graph is acyclic. *)
Definition acyclic (d : dag) : Prop :=
  let order := get_topo_sorted_gate_id_list d in
  Forall (λ c, (position (c_driver c) order < position (c_load c) order)%nat)
         (conns d).

(** No gate drives a wire that is an input port of the circuit. *)
Definition inputs_undriven (d : dag) : Prop :=
  map_Forall (λ _ x, Forall (λ w, is_in_port d w = false) (outputs x))
             (gates d).

(** Every wire name in use is a registered one. *)
Definition registered (d : dag) : Prop := all_wire_names d ⊆ wire_names d.

Definition well_formed (d : dag) : Prop :=
  Forall (conn_backed d) (conns d) ∧ pins_connected d ∧ inverters_unary d
  ∧ single_driver d ∧ acyclic d ∧ inputs_undriven d ∧ registered d.

Global Instance conn_backed_dec d c : Decision (conn_backed d c).
Proof. unfold conn_backed. repeat case_match; apply _. Defined.

Global Instance well_formed_dec d : Decision (well_formed d).
Proof.
  unfold well_formed, pins_connected, inverters_unary, single_driver, acyclic,
    inputs_undriven, registered.
  apply _.
Defined.

End Wf.

(** ** The circuits of the scenarios *)

Module Circuits.
Import Netlist Wf.

Definition mk (func : string) (ins outs : list wire) : gate := Gate func ins outs ∅.

(** Driver [D] into inverter [N1] into load [L], [L.inputs = [n]]. *)
Definition standard : dag :=
  netlist [("D", mk "buf1" ["a"] ["d"]);
           ("N1", mk "inv1" ["d"] ["n"]);
           ("L", mk "buf1" ["n"] ["z"])] ["a"] ["z"].

(** [D] drives [d] into both [N1] and [L], [L.inputs = [d; n]]. *)
Definition conflict : dag :=
  netlist [("D", mk "buf1" ["a"] ["d"]);
           ("N1", mk "inv1" ["d"] ["n"]);
           ("L", mk "xor2" ["d"; "n"] ["z"])] ["a"] ["z"].

(** The same with two loads that consume both [d] and [n]. *)
Definition double_conflict : dag :=
  netlist [("D", mk "buf1" ["a"] ["d"]);
           ("N1", mk "inv1" ["d"] ["n"]);
           ("L1", mk "xor2" ["d"; "n"] ["y"]);
           ("L2", mk "and2" ["n"; "d"] ["z"])] ["a"] ["y"; "z"].

(** Two inverters in a row between [D] and [L]. *)
Definition chain : dag :=
  netlist [("D", mk "and2" ["a"; "b"] ["d"]);
           ("N1", mk "inv1" ["d"] ["n1"]);
           ("N2", mk "inv1" ["n1"] ["n2"]);
           ("L", mk "and2" ["n2"; "a"] ["z"])] ["a"; "b"] ["z"].

(** An inverter [N] between an eliminable inverter [M] and the output port. *)
Definition boundary : dag :=
  netlist [("D", mk "buf1" ["a"] ["d"]);
           ("M", mk "inv1" ["d"] ["m"]);
           ("N", mk "inv1" ["m"] ["z"])] ["a"] ["z"].


(** An inverter on an internal wire that no gate drives. *)
Definition undriven : dag :=
  netlist [("N1", mk "inv1" ["d"] ["n"]);
           ("L", mk "buf1" ["n"] ["z"])] [] ["z"].

End Circuits.

(** ** Notions used to state the properties of the pass *)

Section Notions.
Context {DAG : Type} `{!Container DAG}.

(** What is left of a run once the printed lines are forgotten. *)
Definition erase {A} (p : outcome A * @world DAG) : outcome A * DAG :=
  (p.1, w_dag p.2).

Definition agree {A} (m1 m2 : M A) : Prop :=
  ∀ d out1 out2, erase (m1 (World d out1)) = erase (m2 (World d out2)).

(** The computation never fails an assertion. *)
Definition assertion_free {A} (m : @M DAG A) : Prop :=
  ∀ w, (m w).1 ≠ Raise AssertionError.

(** The rewrite once its assertion has passed. *)
Definition rewire debug (g : gate_id) (i o : wire) (dr : gate_id)
    (loads : list gate_id) : M Z :=
  bind (call (remove_wire dr g)) (λ _,
  bind (for_each loads (λ ld, call (remove_wire g ld))) (λ _,
  bind (call (remove_gate g)) (λ _,
  bind (for_each loads (reconnect debug i o dr)) (λ _, ret 1)))).

(** The world in which the edits of [eliminate] start. *)
Definition announced debug (g : gate_id) (w : @world DAG) : world :=
  if 2 <=? debug then World (w_dag w) (w_stdout w ++ [RemoveInvLine g]) else w.

(** The values returned by the per-gate rewrites of one sweep, in order. *)
Fixpoint per_gate_returns debug (ids : list gate_id) : M (list Z) :=
  match ids with
  | [] => ret []
  | g :: rest =>
      bind (is_target_gate g) (λ target : bool,
        if target then
          bind (run_xform_inv_elimination debug g) (λ n,
          bind (per_gate_returns debug rest) (λ ns, ret (n :: ns)))
        else per_gate_returns debug rest)
  end.

Definition sum_Z (ns : list Z) : Z := foldr Z.add 0 ns.

End Notions.

(** ** Notions used to state the properties of the modelled container *)

Module Inv.
Import Netlist Wf.

(** What [replace_input_wire] followed by [invert_input_wire] does to the
    load, and what [replace_output_wire] does to the pins of the driver. *)
Definition pin_to (old new : wire) (x : gate) : gate :=
  Gate (gate_func x) (rename old new (inputs x)) (outputs x)
       ({[new]} ∪ inverted x).

Definition out_to (old new : wire) (x : gate) : gate :=
  Gate (gate_func x) (inputs x) (rename old new (outputs x)) (inverted x).

(** The name generated for the inverted wire in the conflict case. *)
Definition inverted_name (d : dag) (out_wire : wire) : wire :=
  uniqufy_wire_name d (get_wire_base_name d out_wire +:+ "_inv").

(** The rewrite of gate [g] would stop at the port check. *)
Definition skips (d : dag) (g : gate_id) : Prop :=
  ∃ x i o, gates d !! g = Some x ∧ head (inputs x) = Some i
           ∧ head (outputs x) = Some o ∧ touches_port d i o = true.

(** A pin list after pins on wire [o] were moved to wires that are not input
    ports; all other pins are as before. *)
Definition moved_off (d : dag) (o : wire) (l l' : list wire) : Prop :=
  Forall2 (λ a b, a = b ∨ (a = o ∧ is_in_port d b = false)) l l'.

Definition gate_moved (d : dag) (o : wire) (x x' : gate) : Prop :=
  gate_func x' = gate_func x
  ∧ moved_off d o (inputs x) (inputs x')
  ∧ moved_off d o (outputs x) (outputs x').

(** [d'] has the ports of [d], and each of its gates is a gate of [d] whose
    pins on [o] may have moved. *)
Definition evolves (o : wire) (d d' : dag) : Prop :=
  in_ports d' = in_ports d ∧ out_ports d' = out_ports d
  ∧ ∀ g x', gates d' !! g = Some x' →
      ∃ x, gates d !! g = Some x ∧ gate_moved d o x x'.

(** Every connection carrying [w] comes from [dr]. *)
Definition driven_by (w : wire) (dr : gate_id) (d : dag) : Prop :=
  Forall (λ c, c_wire c = w → c_driver c = dr) (conns d).

(** The parts of a gate that only its own reconnection changes. *)
Definition same_pins (x x' : gate) : Prop :=
  gate_func x' = gate_func x ∧ inputs x' = inputs x ∧ inverted x' = inverted x.

(** The state during the loop of reconnections, seen from the netlist [d] the
    rewrite of [g] started on. *)
Definition rewriting (d : dag) (g : gate_id) (o : wire) (s : @world dag) : Prop :=
  evolves o d (w_dag s) ∧ gates (w_dag s) !! g = None.

(** Every inverter left in [d] either is still to be visited or stops at the
    port check. *)
Definition settled (d : dag) (rest : list gate_id) : Prop :=
  ∀ g x, gates d !! g = Some x → gate_func x = "inv1" → g ∈ rest ∨ skips d g.

(** The netlist once gate [g] is disconnected and deleted, [cs] being the
    connections left. *)
Definition detached (d : dag) (g : gate_id) (cs : list conn) : dag :=
  with_gates (with_conns d cs) (delete g (gates d)).

End Inv.

(** ** Further notions: what a run prints, raises and visits *)

Section RunNotions.
Context {DAG : Type} `{!Container DAG}.

(** The lines of the per-gate trace, as opposed to the summary. *)
Definition is_trace_line (l : line) : Prop :=
  match l with
  | SummaryLine _ => False
  | _ => True
  end.

(** The computation leaves what was printed in place and adds only lines
    that satisfy [P]. *)
Definition appends (P : line → Prop) {A} (m : @M DAG A) : Prop :=
  ∀ w, ∃ added, w_stdout (m w).2 = w_stdout w ++ added ∧ Forall P added.

(** The exceptions of the computation all satisfy [P]. *)
Definition raises_only (P : exn → Prop) {A} (m : @M DAG A) : Prop :=
  ∀ w e, (m w).1 = Raise e → P e.

(** The exceptions that the edits of a rewrite can end in: a lookup of a load
    that is not a node, or an error of the container. *)
Definition edit_error (e : exn) : Prop :=
  e = KeyError ∨ ∃ c, e = ContainerError c.

(** One iteration of the loop of [apply]: the visit of one gate id. *)
Definition visit debug (g : gate_id) (total_inv : Z) : @M DAG Z :=
  bind (is_target_gate g) (λ target : bool,
    if target then
      bind (run_xform_inv_elimination debug g) (λ n, ret (total_inv + n))
    else ret total_inv).

(** The gate id names a node that the sweep leaves alone: it is no inverter,
    or it is one that stops at the port check. *)
Definition left_alone (d : DAG) (g : gate_id) : Prop :=
  ∃ x, nodes d g = Some x
    ∧ (gate_func x = "inv1" →
       ∃ i o, head (inputs x) = Some i ∧ head (outputs x) = Some o
              ∧ touches_port d i o = true).

End RunNotions.

Module Keep.
Import Netlist.

(** What the pass keeps of a gate: its function label, the number of its
    input and output pins, and the invert-on-input marks it has. *)
Definition kept (x x' : gate) : Prop :=
  gate_func x' = gate_func x
  ∧ length (inputs x') = length (inputs x)
  ∧ length (outputs x') = length (outputs x)
  ∧ inverted x ⊆ inverted x'.

(** Both ends of every connection are gates of the netlist. *)
Definition attached (d : dag) : Prop :=
  Forall (λ c, is_Some (gates d !! c_driver c) ∧ is_Some (gates d !! c_load c))
         (conns d).

(** The gates of [d'] are those of [d] but for [gone]. *)
Definition gates_but (gone : gate_id → Prop) (d d' : dag) : Prop :=
  ∀ g, is_Some (gates d' !! g) ↔ ¬ gone g ∧ is_Some (gates d !! g).

End Keep.

(** Further circuits, for the corners of the pass. *)
Module Corners.
Import Netlist Wf Circuits.

(** An inverter node with an empty ["inputs"] list. *)
Definition no_input : dag :=
  netlist [("N1", mk "inv1" [] ["n"]);
           ("L", mk "buf1" ["n"] ["z"])] [] ["z"].

(** The only inverter drives the output port. *)
Definition port_inverter : dag :=
  netlist [("D", mk "buf1" ["a"] ["d"]);
           ("N", mk "inv1" ["d"] ["z"])] ["a"] ["z"].

(** An inverter [M] that can be eliminated, and downstream of its load an
    inverter [N] on a wire [q] with two drivers. *)
Definition late_failure : dag :=
  netlist [("D", mk "buf1" ["a"] ["d"]);
           ("M", mk "inv1" ["d"] ["m"]);
           ("L", mk "buf1" ["m"] ["y"]);
           ("E", mk "buf1" ["y"] ["q"]);
           ("F", mk "buf1" ["a"] ["q"]);
           ("N", mk "inv1" ["q"] ["n"]);
           ("P", mk "buf1" ["n"] ["z"])] ["a"] ["z"].

End Corners.

(** * Properties of the pass over any container *)

Section PassFacts.
Context {DAG : Type} `{!Container DAG}.

Implicit Types (w : @world DAG) (g : gate_id) (x : gate).

(** ** The skip taken by the port check *)

Lemma skip_run debug g x i o w :
  nodes (w_dag w) g = Some x →
  head (inputs x) = Some i → head (outputs x) = Some o →
  touches_port (w_dag w) i o = true →
  run_xform_inv_elimination debug g w = (Return 0, w).
Proof.
  intros Hg Hi Ho Hp.
  unfold run_xform_inv_elimination, bind, node. rewrite Hg.
  destruct (inputs x) as [|i' ?]; simplify_eq/=.
  destruct (outputs x) as [|o' ?]; simplify_eq/=.
  by rewrite Hp.
Qed.

(** ** Runs that differ in the debug level only *)

Lemma agree_ret {A} (a : A) : agree (DAG:=DAG) (ret a) (ret a).
Proof. done. Qed.

Lemma agree_bind {A B} (m1 m2 : @M DAG A) (k1 k2 : A → @M DAG B) :
  agree m1 m2 → (∀ a, agree (k1 a) (k2 a)) → agree (bind m1 k1) (bind m2 k2).
Proof.
  intros Hm Hk d out1 out2. specialize (Hm d out1 out2).
  unfold bind, erase in *.
  destruct (m1 _) as [[a1|e1] [d1 o1]], (m2 _) as [[a2|e2] [d2 o2]];
    simplify_eq/=; [apply Hk | done].
Qed.

Lemma agree_call (op : DAG → container_error + DAG) : agree (call op) (call op).
Proof. intros d out1 out2. unfold call, erase; simpl. by destruct (op d). Qed.

Lemma agree_node g : agree (node g) (node g).
Proof. intros d out1 out2. unfold node, erase; simpl. by destruct (nodes d g). Qed.

Lemma agree_get_dag : agree (DAG:=DAG) get_dag get_dag.
Proof. done. Qed.

Lemma agree_first {A} (l : list A) : agree (DAG:=DAG) (first l) (first l).
Proof. by destruct l. Qed.

Lemma agree_assert b : agree (DAG:=DAG) (assert b) (assert b).
Proof. by destruct b. Qed.

Lemma agree_when_print b1 b2 l1 l2 : agree (DAG:=DAG) (when b1 (print l1)) (when b2 (print l2)).
Proof. by destruct b1, b2. Qed.

Lemma agree_for_each {A} (l : list A) (body1 body2 : A → @M DAG unit) :
  (∀ a, agree (body1 a) (body2 a)) → agree (for_each l body1) (for_each l body2).
Proof.
  intros Hb. induction l as [|a l IH]; [done|].
  apply agree_bind; [apply Hb | done].
Qed.

Create HintDb agree.

Local Hint Resolve agree_ret agree_call agree_node agree_get_dag agree_first
  agree_assert agree_when_print : agree.

Ltac agree_step :=
  first [ apply agree_bind; [|intros ?] | apply agree_for_each; intros ?
        | solve [eauto with agree] ].

Lemma agree_reconnect d1 d2 i o dr ld :
  agree (reconnect d1 i o dr ld) (reconnect d2 i o dr ld).
Proof.
  unfold reconnect. agree_step; [agree_step|].
  case_bool_decide; repeat agree_step.
Qed.

Lemma agree_run_xform d1 d2 g :
  agree (run_xform_inv_elimination d1 g) (run_xform_inv_elimination d2 g).
Proof.
  unfold run_xform_inv_elimination, eliminate.
  do 4 (agree_step; [agree_step|]).
  destruct (touches_port _ _ _); [agree_step|].
  repeat first [ apply agree_reconnect | agree_step ].
Qed.

Lemma agree_apply_loop d1 d2 ids total :
  agree (apply_loop d1 ids total) (apply_loop d2 ids total).
Proof.
  revert total. induction ids as [|g ids IH]; intros total; simpl; [agree_step|].
  apply agree_bind; [unfold is_target_gate; repeat agree_step|].
  intros [|]; [|apply IH].
  apply agree_bind; [apply agree_run_xform | intros n; apply IH].
Qed.

(** ** Which exceptions the rewrite can raise *)

Lemma assertion_free_bind {A B} (m : @M DAG A) (k : A → @M DAG B) :
  assertion_free m → (∀ a, assertion_free (k a)) → assertion_free (bind m k).
Proof.
  intros Hm Hk w. specialize (Hm w). unfold bind.
  destruct (m w) as [[a|e] w']; simpl in *; [apply Hk | naive_solver].
Qed.

Lemma assertion_free_call (op : DAG → container_error + DAG) : assertion_free (call op).
Proof. intros w. unfold call. by destruct (op _). Qed.

Lemma assertion_free_node g : assertion_free (node g).
Proof. intros w. unfold node. by destruct (nodes _ _). Qed.

Lemma assertion_free_first {A} (l : list A) : assertion_free (DAG:=DAG) (first l).
Proof. intros w. by destruct l. Qed.

Lemma assertion_free_ret {A} (a : A) : assertion_free (DAG:=DAG) (ret a).
Proof. done. Qed.

Lemma assertion_free_when_print b l : assertion_free (DAG:=DAG) (when b (print l)).
Proof. intros w. by destruct b. Qed.

Lemma assertion_free_for_each {A} (l : list A) (body : A → @M DAG unit) :
  (∀ a, assertion_free (body a)) → assertion_free (for_each l body).
Proof.
  intros Hb. induction l as [|a l IH]; [done|].
  by apply assertion_free_bind.
Qed.

Lemma assertion_free_reconnect debug i o dr ld :
  assertion_free (reconnect debug i o dr ld).
Proof.
  unfold reconnect. apply assertion_free_bind; [apply assertion_free_node|].
  intros x. case_bool_decide;
    repeat first [ apply assertion_free_call | apply assertion_free_when_print
                 | apply assertion_free_bind; [|intros ?] | done ].
Qed.

Lemma assertion_free_rewire debug g i o dr loads :
  assertion_free (rewire debug g i o dr loads).
Proof.
  unfold rewire.
  repeat first [ apply assertion_free_call | apply assertion_free_ret
               | apply assertion_free_for_each; intros ?
               | apply assertion_free_reconnect
               | apply assertion_free_bind; [|intros ?] ].
Qed.

Lemma announced_dag debug g w : w_dag (announced debug g w) = w_dag w.
Proof. unfold announced. by destruct (2 <=? debug). Qed.

Lemma eliminate_unfold debug g i o w :
  eliminate debug g i o w =
    match get_wire_fanin_gate_ids (w_dag w) i with
    | [dr] => rewire debug g i o dr
                (get_wire_fanout_gate_ids (w_dag w) o) (announced debug g w)
    | _ => (Raise AssertionError, announced debug g w)
    end.
Proof.
  unfold eliminate, rewire, announced, bind, when, print, get_dag.
  destruct (2 <=? debug); simpl;
    by destruct (get_wire_fanin_gate_ids _ _) as [|? [|? ?]].
Qed.

Lemma run_xform_unfold debug g x i o w :
  nodes (w_dag w) g = Some x →
  head (inputs x) = Some i → head (outputs x) = Some o →
  touches_port (w_dag w) i o = false →
  run_xform_inv_elimination debug g w = eliminate debug g i o w.
Proof.
  intros Hg Hi Ho Hp.
  unfold run_xform_inv_elimination, bind, node. rewrite Hg.
  destruct (inputs x) as [|i' ?]; simplify_eq/=.
  destruct (outputs x) as [|o' ?]; simplify_eq/=.
  by rewrite Hp.
Qed.

(** ** The accumulated total *)

Lemma apply_loop_returns debug ids total w :
  apply_loop debug ids total w =
    match per_gate_returns debug ids w with
    | (Return ns, w') => (Return (total + sum_Z ns), w')
    | (Raise e, w') => (Raise e, w')
    end.
Proof.
  revert total w. induction ids as [|g ids IH]; intros total w; simpl.
  { unfold ret. by rewrite Z.add_0_r. }
  unfold bind. destruct (is_target_gate g w) as [[[|]|e] w1]; [|by apply IH|done].
  destruct (run_xform_inv_elimination debug g w1) as [[n|e] w2]; [|done].
  rewrite IH. destruct (per_gate_returns debug ids w2) as [[ns|e] w3]; [|done].
  unfold ret; simpl. by rewrite Z.add_assoc.
Qed.

End PassFacts.

(** * Running the monad step by step *)

Section Stepping.
Context {DAG : Type} `{!Container DAG}.

Implicit Types (w : @world DAG) (g : gate_id) (x : gate).

Lemma bind_returns {A B} (m : @M DAG A) (k : A → @M DAG B) w b w' :
  bind m k w = (Return b, w') →
  ∃ a w1, m w = (Return a, w1) ∧ k a w1 = (Return b, w').
Proof.
  unfold bind. destruct (m w) as [[a|e] w1]; [|done]. intros Hk. by exists a, w1.
Qed.

Lemma bind_run {A B} (m : @M DAG A) (k : A → @M DAG B) w a w1 :
  m w = (Return a, w1) → bind m k w = k a w1.
Proof. unfold bind. by intros ->. Qed.

Lemma call_returns (op : DAG → container_error + DAG) w u w' :
  call op w = (Return u, w') →
  op (w_dag w) = inr (w_dag w') ∧ w_stdout w' = w_stdout w.
Proof. unfold call. destruct (op _); [done|]. by intros [= _ <-]. Qed.

Lemma call_run (op : DAG → container_error + DAG) w d' :
  op (w_dag w) = inr d' → call op w = (Return tt, World d' (w_stdout w)).
Proof. unfold call. by intros ->. Qed.

Lemma node_returns g w x w' :
  node g w = (Return x, w') → nodes (w_dag w) g = Some x ∧ w' = w.
Proof. unfold node. destruct (nodes _ _); naive_solver. Qed.

Lemma node_run g w x : nodes (w_dag w) g = Some x → node g w = (Return x, w).
Proof. unfold node. by intros ->. Qed.

Lemma get_dag_returns w d w' :
  get_dag w = (Return d, w') → d = w_dag w ∧ w' = w.
Proof. unfold get_dag. naive_solver. Qed.

Lemma when_print_returns (b : bool) l w u w' :
  when b (print l) w = (Return u, w') →
  w_dag w' = w_dag w
  ∧ w_stdout w' = (if b then w_stdout w ++ [l] else w_stdout w).
Proof. destruct b; unfold when, print, ret; naive_solver. Qed.

Lemma when_print_run (b : bool) l w :
  when b (print l) w =
    (Return tt, World (w_dag w) (if b then w_stdout w ++ [l] else w_stdout w)).
Proof. destruct b, w; by unfold when, print, ret. Qed.

(** A loop that keeps an invariant, read off a run that returned. *)
Lemma for_each_returns {A} (P : @world DAG → Prop) (l : list A)
    (body : A → @M DAG unit) w u w' :
  (∀ a w1 u1 w2, a ∈ l → P w1 → body a w1 = (Return u1, w2) → P w2) →
  P w → for_each l body w = (Return u, w') → P w'.
Proof.
  revert w. induction l as [|a l IH]; intros w Hbody HP Hrun; simpl in Hrun.
  { unfold ret in Hrun. by simplify_eq. }
  apply bind_returns in Hrun as (u1 & w1 & Ha & Hrun).
  eapply IH; [|eapply Hbody; [left|done..]|done].
  intros b ????. apply Hbody. by right.
Qed.

(** A loop every iteration of which returns, by an invariant over the
    elements still to come. *)
Lemma for_each_runs {A} (I : list A → @world DAG → Prop) (l : list A)
    (body : A → @M DAG unit) w :
  (∀ a rest w1, I (a :: rest) w1 →
     ∃ w2, body a w1 = (Return tt, w2) ∧ I rest w2) →
  I l w → ∃ w', for_each l body w = (Return tt, w') ∧ I [] w'.
Proof.
  intros Hbody. revert w. induction l as [|a l IH]; intros w HI; simpl.
  { by exists w. }
  destruct (Hbody _ _ _ HI) as (w2 & Ha & HI2).
  destruct (IH _ HI2) as (w' & Hrun & HI').
  exists w'. by rewrite (bind_run _ _ _ _ _ Ha).
Qed.

Lemma first_returns {A} (l : list A) w a w' :
  first l w = (Return a, w') → head l = Some a ∧ w' = w.
Proof. destruct l; unfold first, ret, raise; naive_solver. Qed.

(** The two ways in which the rewrite returns. *)
Lemma run_xform_returns debug g w n w' :
  run_xform_inv_elimination debug g w = (Return n, w') →
  ∃ x i o, nodes (w_dag w) g = Some x
    ∧ head (inputs x) = Some i ∧ head (outputs x) = Some o
    ∧ ((touches_port (w_dag w) i o = true ∧ n = 0 ∧ w' = w)
       ∨ (touches_port (w_dag w) i o = false
          ∧ eliminate debug g i o w = (Return n, w'))).
Proof.
  unfold run_xform_inv_elimination. intros Hrun.
  apply bind_returns in Hrun as (x & w1 & [Hx ->]%node_returns & Hrun).
  apply bind_returns in Hrun as (i & w1 & [Hi ->]%first_returns & Hrun).
  apply bind_returns in Hrun as (o & w1 & [Ho ->]%first_returns & Hrun).
  apply bind_returns in Hrun as (d & w1 & [-> ->]%get_dag_returns & Hrun).
  exists x, i, o. split_and!; [done..|].
  destruct (touches_port (w_dag w) i o); [left|right; done].
  unfold ret in Hrun. by simplify_eq.
Qed.

Lemma is_target_returns g w (b : bool) w' :
  is_target_gate g w = (Return b, w') →
  ∃ x, nodes (w_dag w) g = Some x
       ∧ b = bool_decide (gate_func x = "inv1") ∧ w' = w.
Proof.
  unfold is_target_gate. intros Hrun.
  apply bind_returns in Hrun as (x & w1 & [Hx ->]%node_returns & Hrun).
  exists x. unfold ret in Hrun. by simplify_eq.
Qed.

Lemma for_each_app {A} (l1 l2 : list A) (body : A → @M DAG unit) w :
  for_each (l1 ++ l2) body w
  = bind (for_each l1 body) (λ _, for_each l2 body) w.
Proof.
  revert w. induction l1 as [|a l1 IH]; intros w; [done|].
  cbn [app for_each]. unfold bind.
  destruct (body a w) as [[[]|e] w1]; [|done]. apply IH.
Qed.

End Stepping.

(** Peeling the statements off a run that returned. *)
Ltac step_returns H :=
  let w1 := fresh "w" in
  let H1 := fresh "Hstep" in
  apply bind_returns in H as (? & w1 & H1 & H);
  first
    [ apply call_returns in H1 as [H1 ?]
    | apply node_returns in H1 as [H1 ->]
    | apply get_dag_returns in H1 as [-> ->]
    | apply when_print_returns in H1 as [H1 ?]
    | idtac ].

(** * The modelled container: queries *)

Section NetlistQueries.
Import Netlist.

Implicit Types (d : dag) (g dr ld : gate_id) (x : gate) (w : wire) (c : conn).

Lemma elem_of_gate_ids d g : g ∈ gate_ids d ↔ is_Some (gates d !! g).
Proof.
  unfold gate_ids. rewrite list_elem_of_fmap. split.
  - intros ([g' x] & -> & Hx). apply elem_of_map_to_list in Hx. by exists x.
  - intros [x Hx]. exists (g, x). split; [done|]. by apply elem_of_map_to_list.
Qed.

Lemma elem_of_fanin d w g :
  g ∈ get_wire_fanin_gate_ids d w
  ↔ ∃ c, c ∈ conns d ∧ c_wire c = w ∧ c_driver c = g.
Proof.
  unfold get_wire_fanin_gate_ids.
  rewrite elem_of_remove_dups, list_elem_of_fmap. split.
  - intros (c & -> & [Hw Hc]%list_elem_of_filter). by exists c.
  - intros (c & Hc & Hw & <-). exists c. split; [done|].
    by apply list_elem_of_filter.
Qed.

Lemma elem_of_fanout d w g :
  g ∈ get_wire_fanout_gate_ids d w ↔ ∃ x, gates d !! g = Some x ∧ w ∈ inputs x.
Proof.
  unfold get_wire_fanout_gate_ids. rewrite list_elem_of_fmap. split.
  - intros ([g' x] & -> & Hx). apply list_elem_of_filter in Hx as [Hw Hx].
    apply elem_of_map_to_list in Hx. by exists x.
  - intros (x & Hx & Hw). exists (g, x). split; [done|].
    apply list_elem_of_filter. split; [done|]. by apply elem_of_map_to_list.
Qed.

Lemma NoDup_fst_filter {A B} (P : A * B → Prop) `{∀ p, Decision (P p)}
    (l : list (A * B)) :
  NoDup l.*1 → NoDup (filter P l).*1.
Proof.
  induction l as [|p l IH]; [done|]. rewrite fmap_cons, NoDup_cons.
  intros [Hp Hl]. rewrite filter_cons. case_decide; [|by apply IH].
  rewrite fmap_cons, NoDup_cons. split; [|by apply IH].
  intros Hin. apply Hp. apply list_elem_of_fmap in Hin as (q & -> & Hq).
  apply list_elem_of_filter in Hq as [_ Hq]. by apply list_elem_of_fmap_2.
Qed.

Lemma NoDup_fanout d w : NoDup (get_wire_fanout_gate_ids d w).
Proof. apply NoDup_fst_filter, NoDup_fst_map_to_list. Qed.

(** The order handed out by the container lists exactly the gates. *)
Lemma find_ready_elem cs rem g0 :
  g0 ∈ rem → default g0 (List.find (ready cs rem) rem) ∈ rem.
Proof.
  intros Hg0. destruct (List.find _ rem) as [g|] eqn:Hf; [|done].
  apply find_some in Hf as [Hin _]. by apply list_elem_of_In.
Qed.

Lemma elem_of_topo_go cs fuel rem g : g ∈ topo_go cs fuel rem ↔ g ∈ rem.
Proof.
  revert rem. induction fuel as [|fuel IH]; intros rem; [by destruct rem|].
  destruct rem as [|g0 rem']; [done|]. cbn [topo_go].
  set (pick := default g0 _).
  assert (pick ∈ g0 :: rem') as Hpick by (apply find_ready_elem; left).
  rewrite elem_of_cons, IH, list_elem_of_filter.
  destruct (decide (g = pick)) as [->|]; intuition.
Qed.

Lemma NoDup_topo_go cs fuel rem : NoDup rem → NoDup (topo_go cs fuel rem).
Proof.
  revert rem. induction fuel as [|fuel IH]; intros rem Hnd; [by destruct rem|].
  destruct rem as [|g0 rem']; [done|]. cbn [topo_go].
  apply NoDup_cons. split.
  - rewrite elem_of_topo_go, list_elem_of_filter. by intros [? _].
  - by apply IH, NoDup_filter.
Qed.

(** Every gate id is handed out exactly once. *)
Lemma topo_exactly_once d : get_topo_sorted_gate_id_list d ≡ₚ gate_ids d.
Proof.
  assert (NoDup (gate_ids d)) as Hnd by apply NoDup_fst_map_to_list.
  apply NoDup_Permutation; [by apply NoDup_topo_go|done|].
  intros g. apply elem_of_topo_go.
Qed.

Lemma elem_of_topo d g :
  g ∈ get_topo_sorted_gate_id_list d ↔ is_Some (gates d !! g).
Proof.
  unfold get_topo_sorted_gate_id_list.
  by rewrite elem_of_topo_go, elem_of_gate_ids.
Qed.

(** ** Names in use, and fresh names *)

Lemma in_port_named d w : w ∈ in_ports d → w ∈ all_wire_names d.
Proof. unfold all_wire_names. set_solver. Qed.

Lemma out_port_named d w : w ∈ out_ports d → w ∈ all_wire_names d.
Proof. unfold all_wire_names. set_solver. Qed.


Lemma conn_named d c : c ∈ conns d → c_wire c ∈ all_wire_names d.
Proof.
  intros Hc. unfold all_wire_names.
  apply elem_of_union_l, elem_of_union_r, elem_of_list_to_set.
  by apply list_elem_of_fmap_2.
Qed.

Lemma pin_named d g x w :
  gates d !! g = Some x → w ∈ inputs x ∨ w ∈ outputs x → w ∈ all_wire_names d.
Proof.
  intros Hx Hw. unfold all_wire_names.
  apply elem_of_union_r, elem_of_union_list. exists (gate_wires x). split.
  - apply list_elem_of_fmap_2. apply list_elem_of_fmap. exists (g, x).
    split; [done|]. by apply elem_of_map_to_list.
  - unfold gate_wires. set_solver.
Qed.

Lemma suffixed_inj base : Inj (=) (=) (suffixed base).
Proof.
  intros j k Hjk. unfold suffixed in Hjk.
  apply (inj (String.app base)), (inj (String.app "_")) in Hjk.
  by apply (inj pretty) in Hjk.
Qed.

Lemma uniquify_from_exhausted used base k fuel :
  uniquify_from used base k fuel ∈ used →
  ∀ j, (k ≤ j ≤ k + fuel)%nat → suffixed base j ∈ used.
Proof.
  revert k. induction fuel as [|fuel IH]; intros k Hres j Hj; simpl in Hres.
  { by replace j with k by lia. }
  case_decide as Hk; [|done].
  destruct (decide (j = k)) as [->|]; [done|].
  apply (IH (S k)); [done | lia].
Qed.

Lemma uniquify_from_fresh used base k :
  uniquify_from used base k (size used) ∉ used.
Proof.
  intros Hres.
  pose proof (uniquify_from_exhausted _ _ _ _ Hres) as Hall.
  set (cands := suffixed base <$> seq k (S (size used))).
  assert (NoDup cands) as Hnd
    by (apply NoDup_fmap_2; [apply suffixed_inj | apply NoDup_seq]).
  assert (list_to_set cands ⊆ used) as Hsub.
  { intros w. rewrite elem_of_list_to_set. unfold cands.
    rewrite list_elem_of_fmap. intros (j & -> & Hj).
    apply elem_of_seq in Hj. apply Hall. lia. }
  apply subseteq_size in Hsub. rewrite size_list_to_set in Hsub by done.
  unfold cands in Hsub. rewrite length_fmap, length_seq in Hsub. lia.
Qed.

Lemma uniqufy_fresh d base : uniqufy_wire_name d base ∉ all_wire_names d.
Proof.
  unfold uniqufy_wire_name. case_decide; [apply uniquify_from_fresh | done].
Qed.

End NetlistQueries.

(** * The modelled container: what the edits of one reconnection do *)

Section NetlistEdits.
Import Netlist Inv.

Implicit Types (d : dag) (g dr ld : gate_id) (x : gate) (w i o t : wire)
  (c : conn) (out : list line).

Lemma add_wire_ok t dr ld d :
  driven_by t dr d → is_Some (gates d !! dr) → is_Some (gates d !! ld) →
  add_wire t dr ld d =
    inr (with_name (with_conns d (conns d ++ [Conn t dr ld])) t).
Proof.
  intros Hdrv Hdr Hld. unfold add_wire.
  rewrite decide_False, decide_True; [done..|].
  rewrite Exists_exists. intros (c & Hc & Hw & Hne).
  unfold driven_by in Hdrv. rewrite Forall_forall in Hdrv. by apply Hne, Hdrv.
Qed.

Lemma add_wire_inv t dr ld d d' :
  add_wire t dr ld d = inr d' →
  d' = with_name (with_conns d (conns d ++ [Conn t dr ld])) t
  ∧ is_Some (gates d !! dr) ∧ is_Some (gates d !! ld).
Proof.
  unfold add_wire. case_decide; [done|]. case_decide as Hends; [|done].
  intros [= <-]. by destruct Hends.
Qed.

Lemma reconnect_inv debug i o dr ld d out d' out' :
  reconnect debug i o dr ld (World d out) = (Return tt, World d' out') →
  ∃ xl t, gates d !! ld = Some xl
    ∧ (((i ∉ inputs xl) ∧ t = i
          ∧ gates d' = alter (pin_to o t) ld (gates d)
          ∧ conns d' = conns d ++ [Conn t dr ld])
       ∨ (i ∈ inputs xl ∧ t = inverted_name d o
          ∧ gates d' = alter (pin_to o t) ld (alter (out_to o t) dr (gates d))
          ∧ conns d' = (rename_conn dr o t <$> conns d) ++ [Conn t dr ld]))
    ∧ in_ports d' = in_ports d ∧ out_ports d' = out_ports d
    ∧ wire_names d ⊆ wire_names d'.
Proof.
  unfold reconnect. intros Hrun. step_returns Hrun. rename x into xl.
  simpl in Hstep. exists xl. case_bool_decide as Hin.
  - exists (inverted_name d o). unfold inverted_name.
    step_returns Hrun. destruct w as [d0 out0]; simpl in *; subst d0.
    step_returns Hrun. simpl in Hrun.
    step_returns Hrun. step_returns Hrun. step_returns Hrun.
    apply call_returns in Hrun as [Hrun ?].
    apply add_wire_inv in Hstep1 as (Hd1 & _ & _).
    destruct w as [d1 ?], w0 as [d2 ?], w1 as [d3 ?].
    cbn in *. unfold replace_output_wire, replace_input_wire, invert_input_wire in *.
    simplify_eq. simpl.
    split; [done|]. split; [|set_solver].
    right. repeat split; try done.
    by rewrite alter_alter_eq.
  - exists i. step_returns Hrun. step_returns Hrun.
    apply call_returns in Hrun as [Hrun ?].
    apply add_wire_inv in Hstep0 as (Hd1 & _ & _).
    destruct w as [d1 ?], w0 as [d2 ?].
    cbn in *. unfold replace_input_wire, invert_input_wire in *.
    simplify_eq. simpl.
    split; [done|]. split; [|set_solver].
    left. repeat split; try done.
    by rewrite alter_alter_eq.
Qed.

Lemma dag_run (w : @world dag) {B} (k : dag → M B) :
  bind get_dag k w = k (w_dag w) w.
Proof. done. Qed.

Lemma reconnect_ok debug i o dr ld d out :
  is_Some (gates d !! ld) → is_Some (gates d !! dr) → driven_by i dr d →
  ∃ d' out', reconnect debug i o dr ld (World d out)
             = (Return tt, World d' out').
Proof.
  intros [xl Hld] Hdr Hdrv. unfold reconnect.
  erewrite bind_run by (by apply node_run). case_bool_decide as Hin.
  - erewrite bind_run by apply when_print_run.
    rewrite dag_run. cbn [w_dag].
    erewrite bind_run by (by apply call_run).
    erewrite bind_run; [|apply call_run, add_wire_ok; cbn].
    + erewrite bind_run by (by apply call_run).
      erewrite call_run by done. by eexists _, _.
    + apply Forall_fmap, Forall_forall. intros c Hc. unfold compose. cbv beta. unfold rename_conn.
      case_decide as Hc'; cbn; [by destruct Hc'|]. intros Ht.
      destruct (uniqufy_fresh d (get_wire_base_name d o +:+ "_inv")).
      rewrite <-Ht. by apply conn_named.
    + by apply lookup_alter_is_Some.
    + by apply lookup_alter_is_Some.
  - erewrite bind_run; [|by apply call_run, add_wire_ok].
    erewrite bind_run by (by apply call_run).
    erewrite call_run by done. by eexists _, _.
Qed.

(** What a reconnection keeps: the set of gates, the ports, the registered
    names, and the single driver of the direct wire. *)
Lemma reconnect_keeps debug i o dr ld d out d' out' :
  reconnect debug i o dr ld (World d out) = (Return tt, World d' out') →
  (∀ g, is_Some (gates d' !! g) ↔ is_Some (gates d !! g))
  ∧ (driven_by i dr d → driven_by i dr d').
Proof.
  intros (xl & t & Hld & Hcase & _)%reconnect_inv.
  destruct Hcase as [(_ & -> & Hgs & Hcs)|(_ & _ & Hgs & Hcs)].
  - split.
    + intros g. by rewrite Hgs, lookup_alter_is_Some.
    + unfold driven_by. rewrite Hcs, Forall_app, Forall_singleton. by split.
  - split.
    + intros g. by rewrite Hgs, !lookup_alter_is_Some.
    + unfold driven_by. rewrite Hcs, Forall_app, Forall_singleton.
      intros Hdrv. split; [|done].
      apply Forall_fmap. eapply Forall_impl; [exact Hdrv|].
      intros c Hc. unfold compose, rename_conn.
      case_decide as Hren; cbn; [by destruct Hren | done].
Qed.

Lemma reconnect_all_runs debug i o dr loads d out :
  (∀ ld, ld ∈ loads → is_Some (gates d !! ld)) →
  is_Some (gates d !! dr) → driven_by i dr d →
  ∃ d' out', for_each loads (reconnect debug i o dr) (World d out)
             = (Return tt, World d' out').
Proof.
  intros Hloads Hdr Hdrv.
  destruct (for_each_runs
    (λ rest (s : @world dag),
       (∀ ld, ld ∈ rest → is_Some (gates (w_dag s) !! ld))
       ∧ is_Some (gates (w_dag s) !! dr) ∧ driven_by i dr (w_dag s))
    loads (reconnect debug i o dr) (World d out)) as ([d' out'] & Hrun & _).
  - intros ld rest [d1 out1] (Hrest & Hdr1 & Hdrv1). cbn in *.
    destruct (reconnect_ok debug i o dr ld d1 out1) as (d2 & out2 & Hrun);
      [apply Hrest; left | done..|].
    exists (World d2 out2). split; [done|].
    apply reconnect_keeps in Hrun as [Hdom Hkeep]. cbn.
    split_and!; [|by apply Hdom|by apply Hkeep].
    intros ld' Hld'. apply Hdom, Hrest. by right.
  - done.
  - by exists d', out'.
Qed.

(** What the reconnection of load [a] leaves alone. *)
Lemma reconnect_frame debug i o dr a d out d' out' :
  reconnect debug i o dr a (World d out) = (Return tt, World d' out') →
  (∀ c, c ∈ conns d → c_wire c ≠ o → c ∈ conns d')
  ∧ wire_names d ⊆ wire_names d'
  ∧ (∀ ld xl, a ≠ ld → gates d !! ld = Some xl →
       ∃ xl', gates d' !! ld = Some xl' ∧ same_pins xl xl').
Proof.
  intros (xa & t & Ha & Hcase & _ & _ & Hnames)%reconnect_inv.
  destruct Hcase as [(_ & -> & Hgs & Hcs)|(_ & _ & Hgs & Hcs)].
  - split_and!; [|done|].
    + intros c Hc _. rewrite Hcs. apply elem_of_app. by left.
    + intros ld xl Hne Hxl. exists xl. rewrite Hgs, lookup_alter_ne by done.
      by split.
  - split_and!; [|done|].
    + intros c Hc Hw. rewrite Hcs. apply elem_of_app. left.
      apply list_elem_of_fmap. exists c. split; [|done].
      unfold rename_conn. rewrite decide_False; [done|]. by intros [_ ?].
    + intros ld xl Hne Hxl. rewrite Hgs, lookup_alter_ne by done.
      destruct (decide (dr = ld)) as [->|Hdr].
      * rewrite lookup_alter_eq, Hxl. by eexists.
      * rewrite lookup_alter_ne by done. by exists xl.
Qed.

(** What the reconnection of load [ld] does to it. *)
Lemma reconnect_load debug i o dr ld d out d' out' xl :
  reconnect debug i o dr ld (World d out) = (Return tt, World d' out') →
  gates d !! ld = Some xl → o ∈ inputs xl →
  ∃ t xl', gates d' !! ld = Some xl'
    ∧ gate_func xl' = gate_func xl
    ∧ inputs xl' = rename o t (inputs xl)
    ∧ inverted xl' = {[t]} ∪ inverted xl
    ∧ Conn t dr ld ∈ conns d'
    ∧ (((i ∉ inputs xl) ∧ t = i)
       ∨ (i ∈ inputs xl ∧ t = inverted_name d o
          ∧ (t ∉ all_wire_names d) ∧ t ≠ o ∧ t ≠ i)).
Proof.
  intros (xl0 & t & Hld & Hcase & _)%reconnect_inv Hxl Ho.
  rewrite Hxl in Hld. injection Hld as <-.
  exists t. destruct Hcase as [(Hin & -> & Hgs & Hcs)|(Hin & -> & Hgs & Hcs)].
  - exists (pin_to o i xl). rewrite Hgs, lookup_alter_eq, Hxl, Hcs.
    split_and!; try done; [|by left].
    apply elem_of_app. right. left.
  - assert (inverted_name d o ∉ all_wire_names d) as Hfresh
      by apply uniqufy_fresh.
    assert (∀ w, w ∈ inputs xl → inverted_name d o ≠ w) as Hne.
    { intros w Hw Heq. apply Hfresh. rewrite Heq. eapply pin_named; eauto. }
    rewrite Hgs, lookup_alter_eq, Hcs.
    assert (∃ xl1, alter (out_to o (inverted_name d o)) dr (gates d) !! ld
                   = Some xl1 ∧ same_pins xl xl1) as (xl1 & -> & Hf & Hi & Hv).
    { destruct (decide (dr = ld)) as [->|Hdr].
      - rewrite lookup_alter_eq, Hxl. by eexists.
      - rewrite lookup_alter_ne by done. by exists xl. }
    exists (pin_to o (inverted_name d o) xl1). cbn. rewrite Hi, Hv.
    split_and!; try done.
    + apply elem_of_app. right. left.
    + right. split_and!; auto.
Qed.

Lemma same_pins_trans x1 x2 x3 :
  same_pins x1 x2 → same_pins x2 x3 → same_pins x1 x3.
Proof. unfold same_pins. intros (?&?&?) (?&?&?). split_and!; congruence. Qed.

(** What the whole loop of reconnections leaves alone. *)
Lemma reconnect_all_frame debug i o dr loads d out d' out' :
  for_each loads (reconnect debug i o dr) (World d out)
    = (Return tt, World d' out') →
  (∀ c, c ∈ conns d → c_wire c ≠ o → c ∈ conns d')
  ∧ wire_names d ⊆ wire_names d'
  ∧ (∀ g, is_Some (gates d' !! g) ↔ is_Some (gates d !! g))
  ∧ (∀ ld xl, ld ∉ loads → gates d !! ld = Some xl →
       ∃ xl', gates d' !! ld = Some xl' ∧ same_pins xl xl').
Proof.
  intros Hrun.
  apply (for_each_returns
    (λ s : @world dag,
       (∀ c, c ∈ conns d → c_wire c ≠ o → c ∈ conns (w_dag s))
       ∧ wire_names d ⊆ wire_names (w_dag s)
       ∧ (∀ g, is_Some (gates (w_dag s) !! g) ↔ is_Some (gates d !! g))
       ∧ (∀ ld xl, ld ∉ loads → gates d !! ld = Some xl →
            ∃ xl', gates (w_dag s) !! ld = Some xl' ∧ same_pins xl xl'))
    loads (reconnect debug i o dr) (World d out) tt (World d' out'));
    [|by (split_and!; try done; intros ld xl _ ?; exists xl)|done].
  intros a [d1 out1] [] [d2 out2] Ha (Hcs & Hnames & Hdom & Hpins) Hstep. cbn in *.
  pose proof (reconnect_keeps _ _ _ _ _ _ _ _ _ Hstep) as [Hdom2 _].
  apply reconnect_frame in Hstep as (Hcs2 & Hnames2 & Hpins2).
  split_and!.
  - intros c Hc Hw. by apply Hcs2; [apply Hcs|].
  - by etrans.
  - intros g. by rewrite Hdom2.
  - intros ld xl Hld Hxl. destruct (Hpins ld xl Hld Hxl) as (xl1 & Hxl1 & Hsame).
    destruct (Hpins2 ld xl1) as (xl2 & Hxl2 & Hsame2); [by intros ->|done|].
    exists xl2. split; [done|]. by eapply same_pins_trans.
Qed.

(** What the whole loop does to one of its loads. *)
Lemma reconnect_all_load debug i o dr loads d out d' out' ld xl :
  NoDup loads → ld ∈ loads → i ≠ o →
  gates d !! ld = Some xl → o ∈ inputs xl →
  for_each loads (reconnect debug i o dr) (World d out)
    = (Return tt, World d' out') →
  ∃ t xl', gates d' !! ld = Some xl'
    ∧ gate_func xl' = gate_func xl
    ∧ inputs xl' = rename o t (inputs xl)
    ∧ inverted xl' = {[t]} ∪ inverted xl
    ∧ Conn t dr ld ∈ conns d'
    ∧ (((i ∉ inputs xl) ∧ t = i)
       ∨ (i ∈ inputs xl ∧ t ≠ o ∧ t ≠ i
          ∧ ∃ dm, t = inverted_name dm o ∧ (t ∉ all_wire_names dm)
                  ∧ wire_names d ⊆ wire_names dm)).
Proof.
  intros Hnd Hld Hio Hxl Ho Hrun.
  apply list_elem_of_split in Hld as (l1 & l2 & ->).
  apply NoDup_app in Hnd as (_ & Hl1 & [Hl2 _]%NoDup_cons).
  rewrite for_each_app in Hrun.
  apply bind_returns in Hrun as ([] & [dm outm] & Hrun1 & Hrun).
  cbn [for_each] in Hrun.
  apply bind_returns in Hrun as ([] & [d2 out2] & Hstep & Hrun2).
  apply reconnect_all_frame in Hrun1 as (_ & Hnames1 & _ & Hpins1).
  destruct (Hpins1 ld xl) as (xlm & Hxlm & Hf & Hi & Hv); [|done|].
  { intros Hin. apply (Hl1 ld Hin). left. }
  apply reconnect_load with (xl := xlm) in Hstep
    as (t & xl2 & Hxl2 & Hf2 & Hi2 & Hv2 & Hc2 & Hcase);
    [|done|by rewrite Hi].
  apply reconnect_all_frame in Hrun2 as (Hcs & _ & _ & Hpins2).
  destruct (Hpins2 ld xl2 Hl2 Hxl2) as (xl' & Hxl' & Hf' & Hi' & Hv').
  assert (t ≠ o) as Hto.
  { destruct Hcase as [[_ ->]|(_ & _ & _ & ? & _)]; done. }
  exists t, xl'. split_and!; try congruence.
  - by apply Hcs.
  - rewrite Hi in Hcase.
    destruct Hcase as [?|(? & -> & ? & ? & ?)]; [by left|right].
    split_and!; try done. by exists dm.
Qed.

End NetlistEdits.

(** * Well-formed netlists *)

Section WellFormed.
Import Netlist Wf Inv.

Implicit Types (d : dag) (g dr ld : gate_id) (x : gate) (w i o t : wire)
  (c : conn).

Lemma wf_backed d c :
  well_formed d → c ∈ conns d →
  ∃ gd gl, gates d !! c_driver c = Some gd ∧ gates d !! c_load c = Some gl
           ∧ c_wire c ∈ outputs gd ∧ c_wire c ∈ inputs gl.
Proof.
  intros (Hb & _) Hc. rewrite Forall_forall in Hb. specialize (Hb c Hc).
  unfold conn_backed in Hb.
  destruct (gates d !! c_driver c) as [gd|]; [|done].
  destruct (gates d !! c_load c) as [gl|]; [|done].
  destruct Hb. by exists gd, gl.
Qed.

Lemma wf_connected d dr gd ld gl w :
  well_formed d → gates d !! dr = Some gd → gates d !! ld = Some gl →
  w ∈ outputs gd → w ∈ inputs gl → Conn w dr ld ∈ conns d.
Proof.
  intros (_ & Hc & _) Hdr Hld Hout Hin.
  specialize (Hc dr gd Hdr ld gl Hld). rewrite Forall_forall in Hc. by apply Hc.
Qed.



Lemma wf_no_self_loop d g w : well_formed d → Conn w g g ∉ conns d.
Proof.
  intros (_ & _ & _ & _ & Ha & _) Hc. unfold acyclic in Ha.
  rewrite Forall_forall in Ha. specialize (Ha _ Hc). simpl in Ha. lia.
Qed.

Lemma wf_inputs_undriven d g x w :
  inputs_undriven d → gates d !! g = Some x → w ∈ outputs x →
  is_in_port d w = false.
Proof.
  intros Hu Hg Hw. specialize (Hu g x Hg). rewrite Forall_forall in Hu.
  by apply Hu.
Qed.


(** A gate of a well-formed netlist does not consume its own output. *)
Lemma wf_no_feedback d g x w :
  well_formed d → gates d !! g = Some x → w ∈ inputs x → w ∉ outputs x.
Proof.
  intros Hwf Hg Hin Hout. apply (wf_no_self_loop d g w Hwf).
  by eapply wf_connected.
Qed.

Lemma touches_port_false d i o :
  touches_port d i o = false →
  is_in_port d i = false ∧ is_out_port d i = false ∧ is_out_port d o = false.
Proof.
  unfold touches_port. cbn.
  destruct (is_in_port d i), (is_out_port d i), (is_out_port d o); naive_solver.
Qed.

End WellFormed.

(** * The rewrite on a well-formed netlist *)

Section Eliminate.
Import Netlist Wf Inv.

Implicit Types (d : dag) (g dr ld : gate_id) (x : gate) (w i o t : wire)
  (c : conn) (out : list line).

Lemma remove_wire_inv a b d d' :
  remove_wire a b d = inr d' →
  d' = with_conns d (filter (λ c, ¬ joins a b c) (conns d))
  ∧ Exists (joins a b) (conns d).
Proof. unfold remove_wire. case_decide; [|done]. by intros [= <-]. Qed.

Lemma remove_gate_inv g d d' :
  remove_gate g d = inr d' →
  d' = with_gates d (delete g (gates d)) ∧ ¬ Exists (touches g) (conns d).
Proof. unfold remove_gate. case_decide; [done|]. by intros [= <-]. Qed.

(** Disconnecting the inverter from its loads. *)
Lemma unload_run g loads d out :
  NoDup loads →
  (∀ ld, ld ∈ loads → Exists (joins g ld) (conns d)) →
  ∃ cs,
    for_each loads (λ ld, call (remove_wire g ld)) (World d out)
      = (Return tt, World (with_conns d cs) out)
    ∧ ∀ c, c ∈ cs ↔ c ∈ conns d ∧ ¬ (c_driver c = g ∧ c_load c ∈ loads).
Proof.
  intros Hnd. revert d. induction Hnd as [|ld loads Hld Hnd IH]; intros d Hex.
  { exists (conns d). destruct d. split; [done|]. intros c. split.
    - intros Hc. split; [done|]. by intros [_ ?%elem_of_nil].
    - by intros [? _]. }
  set (d1 := with_conns d (filter (λ c, ¬ joins g ld c) (conns d))).
  destruct (IH d1) as (cs & Hrun & Hcs).
  { intros ld' Hld'. specialize (Hex ld' (list_elem_of_further _ _ _ Hld')).
    apply Exists_exists in Hex as (c & Hc & Hj). apply Exists_exists.
    exists c. split; [|done]. apply list_elem_of_filter. split; [|done].
    intros [_ Hl]. destruct Hj as [_ Hl']. congruence. }
  exists cs. split.
  - cbn [for_each]. erewrite bind_run.
    2:{ apply call_run. cbn. unfold remove_wire. rewrite decide_True; [done|].
        apply Hex. left. }
    apply Hrun.
  - intros c. rewrite Hcs. unfold d1; cbn. rewrite list_elem_of_filter.
    unfold joins. rewrite elem_of_cons. tauto.
Qed.

(** ** One target inverter *)

Section Target.
Variables (d : dag) (g : gate_id) (x : gate) (i o : wire) (dr : gate_id).
Hypothesis Hwf : well_formed d.
Hypothesis Hg : gates d !! g = Some x.
Hypothesis Hi : inputs x = [i].
Hypothesis Ho : outputs x = [o].
Hypothesis Hdr : get_wire_fanin_gate_ids d i = [dr].

Lemma driver_gate : ∃ xd, gates d !! dr = Some xd ∧ i ∈ outputs xd.
Proof.
  assert (dr ∈ get_wire_fanin_gate_ids d i) as Hin by (rewrite Hdr; left).
  apply elem_of_fanin in Hin as (c & Hc & Hw & Hd).
  destruct (wf_backed d c Hwf Hc) as (gd & _ & Hgd & _ & Hout & _).
  exists gd. by rewrite <-Hd, <-Hw.
Qed.

Lemma only_source c : c ∈ conns d → c_wire c = i → c_driver c = dr.
Proof.
  intros Hc Hw.
  assert (c_driver c ∈ get_wire_fanin_gate_ids d i) as Hin
    by (apply elem_of_fanin; eauto).
  rewrite Hdr in Hin. by apply list_elem_of_singleton in Hin.
Qed.

Lemma only_driver g' x' : gates d !! g' = Some x' → i ∈ outputs x' → g' = dr.
Proof.
  intros Hg' Hout. apply (only_source (Conn i g' g)); [|done].
  eapply wf_connected; [done..|]. rewrite Hi. left.
Qed.

Lemma in_wire_not_out_wire : i ≠ o.
Proof.
  intros Heq. eapply (wf_no_feedback d g x o); [done..| |].
  - rewrite Hi, Heq. left.
  - rewrite Ho. left.
Qed.

Lemma driver_not_inverter : dr ≠ g.
Proof.
  intros Heq. destruct driver_gate as (xd & Hxd & Hout).
  rewrite Heq, Hg in Hxd. injection Hxd as <-.
  eapply (wf_no_feedback d g x i); [done..| |done]. rewrite Hi. left.
Qed.

Lemma load_gate ld :
  ld ∈ get_wire_fanout_gate_ids d o →
  ld ≠ g ∧ ∃ xl, gates d !! ld = Some xl ∧ o ∈ inputs xl.
Proof.
  intros (xl & Hxl & Hin)%elem_of_fanout. split; [|by exists xl].
  intros Heq. rewrite Heq, Hg in Hxl. injection Hxl as <-.
  eapply (wf_no_feedback d g x o); [done..|]. rewrite Ho. left.
Qed.

(** The connections of the inverter are the one from its driver and those to
    its loads. *)
Lemma inverter_conns c :
  c ∈ conns d → touches g c →
  joins dr g c ∨ (c_driver c = g ∧ c_load c ∈ get_wire_fanout_gate_ids d o).
Proof.
  intros Hc Ht. destruct (wf_backed d c Hwf Hc) as (gd & gl & Hgd & Hgl & Hout & Hin).
  destruct (decide (c_driver c = g)) as [Heq|Hne].
  - right. split; [done|]. rewrite Heq, Hg in Hgd. injection Hgd as <-.
    rewrite Ho in Hout. apply list_elem_of_singleton in Hout.
    apply elem_of_fanout. exists gl. by rewrite <-Hout.
  - left. destruct Ht as [?|Hl]; [done|]. split; [|done].
    rewrite Hl, Hg in Hgl. injection Hgl as <-. rewrite Hi in Hin.
    apply list_elem_of_singleton in Hin. by apply only_source.
Qed.

Lemma rewire_detaches debug out :
  ∃ cs,
    (∀ c, c ∈ cs ↔ c ∈ conns d ∧ ¬ touches g c)
    ∧ rewire debug g i o dr (get_wire_fanout_gate_ids d o) (World d out)
      = bind (for_each (get_wire_fanout_gate_ids d o) (reconnect debug i o dr))
             (λ _, ret 1) (World (detached d g cs) out).
Proof.
  set (loads := get_wire_fanout_gate_ids d o).
  set (d1 := with_conns d (filter (λ c, ¬ joins dr g c) (conns d))).
  destruct driver_gate as (xd & Hxd & Hxdi).
  assert (Exists (joins dr g) (conns d)) as Hex.
  { apply Exists_exists. exists (Conn i dr g). split; [|done].
    eapply wf_connected; [done..|]. rewrite Hi. left. }
  destruct (unload_run g loads d1 out) as (cs & Hrun & Hcs).
  { apply NoDup_fanout. }
  { intros ld Hld. destruct (load_gate ld Hld) as (Hne & xl & Hxl & Hin).
    apply Exists_exists. exists (Conn o g ld). split; [|done].
    apply list_elem_of_filter. split.
    - intros [Hd' _]. cbn in Hd'. by apply driver_not_inverter.
    - eapply wf_connected; [done..| |done]. rewrite Ho. left. }
  assert (∀ c, c ∈ cs ↔ c ∈ conns d ∧ ¬ touches g c) as Hchar.
  { intros c. rewrite Hcs. unfold d1; cbn. rewrite list_elem_of_filter.
    split.
    - intros [[Hj Hc] Hl]. split; [done|]. intros Ht.
      destruct (inverter_conns c Hc Ht); [by apply Hj | by apply Hl].
    - intros [Hc Ht]. unfold touches, joins in *. tauto. }
  exists cs. split; [done|]. unfold rewire.
  erewrite bind_run.
  2:{ apply call_run. cbn. unfold remove_wire. by rewrite decide_True. }
  erewrite bind_run by apply Hrun.
  erewrite bind_run; [done|].
  apply call_run. cbn. unfold remove_gate. rewrite decide_False; [done|].
  rewrite Exists_exists. intros (c & Hc & Ht). apply Hchar in Hc.
  by destruct Hc as [_ []].
Qed.

Lemma detached_ready cs :
  (∀ c, c ∈ cs → c ∈ conns d) →
  (∀ ld, ld ∈ get_wire_fanout_gate_ids d o →
         is_Some (gates (detached d g cs) !! ld))
  ∧ is_Some (gates (detached d g cs) !! dr)
  ∧ driven_by i dr (detached d g cs).
Proof.
  intros Hcs. split_and!.
  - intros ld (Hne & xl & Hxl & _)%load_gate. cbn.
    rewrite lookup_delete_ne by done. by exists xl.
  - destruct driver_gate as (xd & Hxd & _). cbn.
    rewrite lookup_delete_ne by (apply not_eq_sym, driver_not_inverter).
    by exists xd.
  - apply Forall_forall. intros c Hc Hw. cbn in Hc. apply Hcs in Hc.
    by apply only_source.
Qed.


(** The state the rewrite ends in. *)
Lemma rewire_spec debug out :
  ∃ d' out',
    rewire debug g i o dr (get_wire_fanout_gate_ids d o) (World d out)
      = (Return 1, World d' out')
    ∧ gates d' !! g = None
    ∧ (∀ c, c ∈ conns d → ¬ touches g c → c_wire c ≠ o → c ∈ conns d')
    ∧ (∀ ld xl, gates d !! ld = Some xl → o ∈ inputs xl →
        ∃ t xl', gates d' !! ld = Some xl'
          ∧ gate_func xl' = gate_func xl
          ∧ inputs xl' = rename o t (inputs xl)
          ∧ inverted xl' = {[t]} ∪ inverted xl
          ∧ Conn t dr ld ∈ conns d'
          ∧ (((i ∉ inputs xl) ∧ t = i)
             ∨ (i ∈ inputs xl ∧ t ≠ o ∧ t ≠ i
                ∧ ∃ dm, t = inverted_name dm o ∧ (t ∉ all_wire_names dm)
                        ∧ wire_names d ⊆ wire_names dm))).
Proof.
  destruct (rewire_detaches debug out) as (cs & Hcs & ->).
  destruct (detached_ready cs) as (Hloads & Hdriver & Hdrv);
    [by intros c [??]%Hcs|].
  destruct (reconnect_all_runs debug i o dr _ _ out Hloads Hdriver Hdrv)
    as (d' & out' & Hrun).
  exists d', out'. split; [by erewrite bind_run|].
  pose proof (reconnect_all_frame _ _ _ _ _ _ _ _ _ Hrun)
    as (Hframe & _ & Hdom & _).
  split_and!.
  - apply eq_None_not_Some. rewrite Hdom. cbn. rewrite lookup_delete_eq.
    by intros [??].
  - intros c Hc Ht Hw. apply Hframe; [|done]. cbn. by apply Hcs.
  - intros ld xl Hxl Hin.
    assert (ld ∈ get_wire_fanout_gate_ids d o) as Hld
      by (apply elem_of_fanout; eauto).
    destruct (load_gate ld Hld) as (Hne & _).
    assert (gates (detached d g cs) !! ld = Some xl) as Hxl1
      by (cbn; by rewrite lookup_delete_ne).
    exact (reconnect_all_load debug i o dr _ _ _ _ _ ld xl (NoDup_fanout d o)
             Hld in_wire_not_out_wire Hxl1 Hin Hrun).
Qed.

End Target.

(** From the rewrite to its edits, on a netlist whose direct wire has the one
    driver [dr]. *)
Lemma rewrite_unfolds debug d g x i o dr out :
  gates d !! g = Some x → inputs x = [i] → outputs x = [o] →
  touches_port d i o = false → get_wire_fanin_gate_ids d i = [dr] →
  run_xform_inv_elimination debug g (World d out)
  = rewire debug g i o dr (get_wire_fanout_gate_ids d o)
      (World d (if 2 <=? debug then out ++ [RemoveInvLine g] else out)).
Proof.
  intros Hg Hi Ho Hport Hdr.
  erewrite run_xform_unfold; [|done|by rewrite Hi|by rewrite Ho|done].
  rewrite eliminate_unfold. cbn. rewrite Hdr.
  unfold announced. by destruct (2 <=? debug).
Qed.


End Eliminate.

(** * One sweep settles every inverter *)

Section Settle.
Import Netlist Wf Inv.

Implicit Types (d : dag) (g dr ld : gate_id) (x : gate) (i o t : wire)
  (c : conn) (out : list line).

Lemma moved_off_refl d o l : moved_off d o l l.
Proof. apply Forall2_same_length_lookup_2; [done|]. intros; simplify_eq. by left. Qed.

Lemma moved_off_rename d o t l l' :
  is_in_port d t = false → moved_off d o l l' → moved_off d o l (rename o t l').
Proof.
  intros Ht Hl. unfold rename. apply Forall2_fmap_r.
  eapply Forall2_impl; [exact Hl|]. intros a b Hab. cbn.
  case_decide as Hb; [|done]. subst b. right. split; [|done].
  by destruct Hab as [->|[-> _]].
Qed.

Lemma gate_moved_refl d o x : gate_moved d o x x.
Proof. split_and!; [done|apply moved_off_refl..]. Qed.

Lemma gate_moved_pin_to d o t x x' :
  is_in_port d t = false → gate_moved d o x x' → gate_moved d o x (pin_to o t x').
Proof.
  intros Ht (Hf & Hi & Ho). split_and!; [done| |done]. by apply moved_off_rename.
Qed.

Lemma gate_moved_out_to d o t x x' :
  is_in_port d t = false → gate_moved d o x x' → gate_moved d o x (out_to o t x').
Proof.
  intros Ht (Hf & Hi & Ho). split_and!; [done..|]. by apply moved_off_rename.
Qed.

(** A generated name is no input port. *)
Lemma inverted_name_not_in_port d o : is_in_port d (inverted_name d o) = false.
Proof.
  unfold is_in_port. apply bool_decide_eq_false. intros Hin.
  by apply (uniqufy_fresh d (get_wire_base_name d o +:+ "_inv")), in_port_named.
Qed.

Lemma reconnect_evolves debug d g i o dr ld (s1 s2 : @world dag) u :
  is_in_port d i = false →
  rewriting d g o s1 → reconnect debug i o dr ld s1 = (Return u, s2) →
  rewriting d g o s2.
Proof.
  destruct s1 as [d1 out1], s2 as [d2 out2], u.
  intros Hi ((Hin & Hout & Hgates) & Hgone) Hrun. cbn in *.
  apply reconnect_inv in Hrun as (xl & t & Hld & Hcase & Hin2 & Hout2 & _).
  assert (is_in_port d t = false) as Ht.
  { destruct Hcase as [(_ & -> & _)|(_ & -> & _)]; [done|].
    pose proof (inverted_name_not_in_port d1 o) as Hfresh.
    unfold is_in_port in *. by rewrite Hin in Hfresh. }
  assert (ld ≠ g) as Hne by (intros ->; by rewrite Hgone in Hld).
  unfold rewriting, evolves; cbn.
  split; [split_and!; [congruence..|]|].
  - intros g' x'.
    destruct Hcase as [(_ & _ & -> & _)|(_ & _ & -> & _)];
      rewrite !lookup_alter_Some.
    + intros [(<- & x1 & Hx1 & ->)|[_ Hx']]; [|by apply Hgates].
      destruct (Hgates _ _ Hx1) as (x & Hx & Hmoved). exists x.
      split; [done|]. by apply gate_moved_pin_to.
    + assert (∀ g'' x1, (dr = g'' ∧ (∃ x0, gates d1 !! g'' = Some x0
                                          ∧ x1 = out_to o t x0)
                         ∨ dr ≠ g'' ∧ gates d1 !! g'' = Some x1) →
                ∃ x, gates d !! g'' = Some x ∧ gate_moved d o x x1) as Hdr.
      { intros g'' x1 [(_ & x0 & Hx0 & ->)|[_ Hx1]]; [|by apply Hgates].
        destruct (Hgates _ _ Hx0) as (x & Hx & Hmoved). exists x.
        split; [done|]. by apply gate_moved_out_to. }
      intros [(<- & x1 & Hx1 & ->)|[_ Hx']]; [|by apply Hdr].
      apply lookup_alter_Some in Hx1.
      destruct (Hdr _ _ Hx1) as (x & Hx & Hmoved). exists x.
      split; [done|]. by apply gate_moved_pin_to.
  - destruct Hcase as [(_ & _ & -> & _)|(_ & _ & -> & _)];
      rewrite ?lookup_alter_None; done.
Qed.

(** The rewrite of a gate that passes the port check deletes it and moves
    pins off its output wire only. *)
Lemma eliminate_evolves debug d g x i o out n d' out' :
  inputs_undriven d → gates d !! g = Some x →
  head (outputs x) = Some o → touches_port d i o = false →
  eliminate debug g i o (World d out) = (Return n, World d' out') →
  evolves o d d' ∧ gates d' !! g = None.
Proof.
  intros Hund Hg Ho Hport. rewrite eliminate_unfold. cbn.
  destruct (get_wire_fanin_gate_ids d i) as [|dr [|??]]; [done| |done].
  set (s0 := announced debug g (World d out)).
  assert (w_dag s0 = d) as Hs0 by apply announced_dag.
  unfold rewire. intros Hrun.
  apply bind_returns in Hrun as ([] & s1 & Hstep1 & Hrun).
  apply call_returns in Hstep1 as [Hstep1 _].
  apply remove_wire_inv in Hstep1 as [Hd1 _]. rewrite Hs0 in Hd1.
  apply bind_returns in Hrun as ([] & s2 & Hstep2 & Hrun).
  apply (for_each_returns
           (λ s : @world dag, gates (w_dag s) = gates d
              ∧ in_ports (w_dag s) = in_ports d
              ∧ out_ports (w_dag s) = out_ports d)) in Hstep2
    as (Hg2 & Hin2 & Hout2); [| |by rewrite Hd1].
  2:{ intros ld sa [] sb _ (? & ? & ?) Hcall.
      apply call_returns in Hcall as [Hcall _].
      apply remove_wire_inv in Hcall as [-> _]. by cbn. }
  apply bind_returns in Hrun as ([] & s3 & Hstep3 & Hrun).
  apply call_returns in Hstep3 as [Hstep3 _].
  apply remove_gate_inv in Hstep3 as [Hd3 _].
  apply bind_returns in Hrun as ([] & s4 & Hstep4 & Hrun).
  unfold ret in Hrun. simplify_eq.
  destruct (touches_port_false d i o Hport) as (Hi & _ & _).
  apply (for_each_returns (rewriting d g o)) in Hstep4; [done| |].
  - intros ld sa u sb _. by apply reconnect_evolves.
  - unfold rewriting, evolves. rewrite Hd3. unfold with_gates. cbn.
    rewrite Hg2, lookup_delete_eq. split; [|done]. split_and!; [done..|].
    intros g' x' [_ Hx']%lookup_delete_Some. exists x'.
    split; [done|]. apply gate_moved_refl.
Qed.

Lemma evolves_undriven o d d' :
  inputs_undriven d → evolves o d d' → inputs_undriven d'.
Proof.
  intros Hund (Hin & _ & Hgates) g x' Hx'. apply Forall_forall. intros b Hb.
  destruct (Hgates g x' Hx') as (x & Hx & _ & _ & Hout).
  apply list_elem_of_lookup in Hb as [k Hk].
  destruct (Forall2_lookup_r _ _ _ _ _ Hout Hk) as (a & Ha & Hab).
  unfold is_in_port in *. rewrite Hin.
  destruct Hab as [->|[_ ?]]; [|done].
  eapply wf_inputs_undriven; [done..|]. by eapply list_elem_of_lookup_2.
Qed.

Lemma head_moved_off d o l l' a :
  moved_off d o l l' → head l = Some a →
  ∃ b, head l' = Some b ∧ (a = b ∨ (a = o ∧ is_in_port d b = false)).
Proof.
  intros Hl Ha. destruct Hl as [|a' b l1 l2 Hab _]; [done|].
  cbn in Ha. simplify_eq. by exists b.
Qed.

Lemma skips_evolves o d d' g x' :
  evolves o d d' → is_in_port d o = false → is_out_port d o = false →
  gates d' !! g = Some x' → skips d g → skips d' g.
Proof.
  intros (Hin & Hout & Hgates) Hoin Hoout Hx' (x0 & i0 & o0 & Hx0 & Hi0 & Ho0 & Hp).
  destruct (Hgates g x' Hx') as (x & Hx & _ & Hmi & Hmo). simplify_eq.
  destruct (head_moved_off _ _ _ _ _ Hmi Hi0) as (i1 & Hi1 & Hii).
  destruct (head_moved_off _ _ _ _ _ Hmo Ho0) as (o1 & Ho1 & Hoo).
  exists x', i1, o1. split_and!; [done..|].
  unfold touches_port in *. cbn in *. unfold is_in_port, is_out_port in *.
  rewrite Hin, Hout.
  destruct Hii as [<-|[-> _]], Hoo as [<-|[-> _]]; [done|..].
  - rewrite Hoout, orb_false_r in Hp. by rewrite Hp.
  - rewrite Hoin, Hoout in Hp. cbn in Hp. by rewrite Hp, !orb_true_r.
  - by rewrite Hoin, Hoout in Hp.
Qed.

(** The invariant of the sweep. *)
Lemma apply_loop_settles debug ids d out total r d' out' :
  inputs_undriven d → settled d ids →
  apply_loop debug ids total (World d out) = (Return r, World d' out') →
  inputs_undriven d' ∧ settled d' [].
Proof.
  revert d out total. induction ids as [|g ids IH]; intros d out total Hund Hset.
  { cbn. unfold ret. by intros [= <- <- <-]. }
  cbn [apply_loop]. intros Hrun.
  apply bind_returns in Hrun as (b & s1 & Htarget & Hrun).
  apply is_target_returns in Htarget as (x & Hx & -> & ->). cbn in Hx.
  case_bool_decide as Hf.
  - apply bind_returns in Hrun as (n & [d1 out1] & Hstep & Hrun).
    apply run_xform_returns in Hstep
      as (x1 & i & o & Hx1 & Hi & Ho & [(Hp & -> & Hsame)|(Hp & Helim)]);
      cbn in Hx1; simplify_eq.
    + eapply IH; [done| |done]. intros g' x' Hx' Hf'.
      destruct (Hset g' x' Hx' Hf') as [[->|?]%elem_of_cons|?]; auto.
      right. by exists x, i, o.
    + pose proof (eliminate_evolves _ _ _ _ _ _ _ _ _ _ Hund Hx Ho Hp Helim)
        as [Hev Hgone].
      eapply IH; [by eapply evolves_undriven| |done].
      intros g' x' Hx' Hf'.
      pose proof Hev as (Hin & Hout & Hgates).
      destruct (Hgates g' x' Hx') as (x0 & Hx0 & Hf0 & _).
      assert (gate_func x0 = "inv1") as Hf0' by congruence.
      destruct (Hset g' x0 Hx0 Hf0') as [[->|?]%elem_of_cons|Hskip].
      * by rewrite Hgone in Hx'.
      * by left.
      * right. eapply (skips_evolves o d d1); [done| | |done..].
        -- apply (wf_inputs_undriven d g x o Hund Hx).
           by apply head_Some_elem_of.
        -- by destruct (touches_port_false d i o Hp) as (_ & _ & ?).
  - eapply IH; [done| |done]. intros g' x' Hx' Hf'.
    destruct (Hset g' x' Hx' Hf') as [[->|?]%elem_of_cons|?]; auto.
    congruence.
Qed.

(** A sweep over a netlist all of whose inverters stop at the port check. *)
Lemma apply_loop_idle debug ids d out total :
  (∀ g, g ∈ ids → is_Some (gates d !! g)) → settled d [] →
  apply_loop debug ids total (World d out) = (Return total, World d out).
Proof.
  intros Hids Hset. revert total.
  induction ids as [|g ids IH]; intros total; [done|].
  destruct (Hids g) as [x Hx]; [left|].
  cbn [apply_loop]. unfold is_target_gate.
  erewrite bind_run; [|erewrite bind_run by (by apply node_run); done].
  cbn beta. case_bool_decide as Hf.
  - destruct (Hset g x Hx Hf) as [[]%elem_of_nil|(x' & i & o & Hx' & Hi & Ho & Hp)].
    simplify_eq.
    erewrite bind_run by (by eapply skip_run).
    rewrite Z.add_0_r. apply IH. intros g' ?. apply Hids. by right.
  - apply IH. intros g' ?. apply Hids. by right.
Qed.

End Settle.

(** * The properties of the pass *)

Section PassClaims.
Context {DAG : Type} `{!Container DAG}.

Implicit Types (w : @world DAG) (g : gate_id) (x : gate).

(** C10. When the port check causes the skip, the rewrite returns 0 and the
    whole world is exactly as before: no gate, wire, connection or
    invert-on-input attribute of the DAG has changed and nothing was printed,
    since the check comes before every edit. *)
Theorem port_skip_changes_nothing debug g x i o w :
  nodes (w_dag w) g = Some x →
  head (inputs x) = Some i → head (outputs x) = Some o →
  touches_port (w_dag w) i o = true →
  run_xform_inv_elimination debug g w = (Return 0, w).
Proof.
  intros Hg Hi Ho Hport. unfold run_xform_inv_elimination.
  rewrite (bind_run _ _ w x w) by (by apply node_run).
  destruct (inputs x) as [|i' ins]; [done|]. injection Hi as ->.
  destruct (outputs x) as [|o' outs]; [done|]. injection Ho as ->.
  cbn [first]. unfold bind, ret, get_dag. by rewrite Hport.
Qed.


(** C7. For a gate that passes the port check, the rewrite fails its
    assertion (the structural-integrity error) exactly when the number of
    gates driving the input wire is not one; and when it does, the DAG is the
    one the rewrite started from. *)
Theorem assertion_iff_not_one_driver debug g x i o w :
  nodes (w_dag w) g = Some x →
  head (inputs x) = Some i → head (outputs x) = Some o →
  touches_port (w_dag w) i o = false →
  let r := run_xform_inv_elimination debug g w in
  (r.1 = Raise AssertionError
     ↔ length (get_wire_fanin_gate_ids (w_dag w) i) ≠ 1%nat)
  ∧ (r.1 = Raise AssertionError → w_dag r.2 = w_dag w).
Proof.
  intros Hg Hi Ho Hport.
  rewrite (run_xform_unfold debug g x i o w) by done.
  rewrite eliminate_unfold.
  destruct (get_wire_fanin_gate_ids (w_dag w) i) as [|dr [|dr' drs]]; cbn.
  - split; [done|]. intros _. apply announced_dag.
  - pose proof (assertion_free_rewire debug g i o dr
      (get_wire_fanout_gate_ids (w_dag w) o) (announced debug g w)) as Hfree.
    split; [|done]. split; [done|]. by intros [].
  - split; [done|]. intros _. apply announced_dag.
Qed.

(** C9. Two runs of [apply] that differ in the debug level only (and in what
    was printed before) end with the same DAG and the same outcome, and the
    loop accumulates the same total in both. *)
Theorem debug_level_only_prints debug1 debug2 (d : DAG) out1 out2 :
  erase (apply debug1 (World d out1)) = erase (apply debug2 (World d out2))
  ∧ erase (apply_loop debug1 (get_topo_sorted_gate_id_list d) 0 (World d out1))
    = erase (apply_loop debug2 (get_topo_sorted_gate_id_list d) 0 (World d out2)).
Proof.
  split; [|apply agree_apply_loop].
  revert d out1 out2. change (agree (apply debug1) (apply debug2)).
  unfold apply. apply agree_bind; [apply agree_get_dag|]. intros dag.
  apply agree_bind; [apply agree_apply_loop|]. intros total.
  apply agree_bind; [apply agree_when_print | intros _; apply agree_ret].
Qed.

(** C2, as amended.  [apply] adds up the values returned by the per-gate
    rewrites, prints that total in the summary line when the debug level is at
    least 1, and returns [None]. *)
Theorem apply_reports_total debug w :
  apply debug w =
    match per_gate_returns debug (get_topo_sorted_gate_id_list (w_dag w)) w with
    | (Return ns, w') =>
        (Return PyNone,
         World (w_dag w')
               (if 1 <=? debug then w_stdout w' ++ [SummaryLine (sum_Z ns)]
                else w_stdout w'))
    | (Raise e, w') => (Raise e, w')
    end.
Proof.
  unfold apply, bind at 1, get_dag; cbn. unfold bind at 1.
  rewrite apply_loop_returns.
  destruct (per_gate_returns _ _ _) as [[ns|e] [d' out']]; [|done].
  rewrite Z.add_0_l. unfold bind. rewrite when_print_run. done.
Qed.

End PassClaims.

Section NetlistClaims.
Import Netlist Wf Inv Circuits.

Implicit Types (d : dag) (g dr ld : gate_id) (x : gate) (i o t : wire)
  (out : list line).


(** C6. The standard case: driver [D] drives wire [dn] into inverter [N1],
    whose output wire [n] is the only input of load [L].  The rewrite returns
    1; afterwards [N1] is gone, the input list of [L] is [[dn]], its pin [dn]
    is marked invert-on-input, and [D] is connected to [L] on wire [dn]. *)
Theorem standard_case_rewrite debug d out N1 x dn n D L xl :
  well_formed d →
  gates d !! N1 = Some x → gate_func x = "inv1" →
  inputs x = [dn] → outputs x = [n] → touches_port d dn n = false →
  get_wire_fanin_gate_ids d dn = [D] →
  gates d !! L = Some xl → inputs xl = [n] →
  ∃ d' out',
    run_xform_inv_elimination debug N1 (World d out) = (Return 1, World d' out')
    ∧ gates d' !! N1 = None
    ∧ (∃ xl', gates d' !! L = Some xl' ∧ inputs xl' = [dn] ∧ dn ∈ inverted xl')
    ∧ Conn dn D L ∈ conns d'.
Proof.
  intros Hwf Hg Hf Hi Ho Hport Hdr HL HLin.
  erewrite rewrite_unfolds by done.
  destruct (rewire_spec d N1 x dn n D Hwf Hg Hi Ho Hdr debug
              (if 2 <=? debug then out ++ [RemoveInvLine N1] else out))
    as (d' & out' & Hrun & Hgone & _ & Hloads).
  exists d', out'. split_and!; [done..| |].
  all: destruct (Hloads L xl HL) as (t & xl' & Hxl' & _ & Hin' & Hinv' & Hconn & Hcase);
    [rewrite HLin; left|].
  all: assert (t = dn) as ->.
  1,3: destruct Hcase as [[_ ?]|[Hin _]]; [done|];
       rewrite HLin in Hin; apply list_elem_of_singleton in Hin;
       by destruct (in_wire_not_out_wire d N1 x dn n Hwf Hg Hi Ho).
  - exists xl'. split_and!; [done| |].
    + rewrite Hin', HLin. unfold rename; cbn. by rewrite decide_True.
    + rewrite Hinv'. by apply elem_of_union_l, elem_of_singleton.
  - done.
Qed.


(** C1 fails on the code: two inverters in a row.  The circuit [chain] is
    well-formed and computes [z = a and b]; the pass eliminates both inverters
    and the netlist it leaves computes [z = a and not (a and b)], so the two
    differ on the assignment that sets every input. *)
Theorem inverter_chain_changes_function :
  well_formed chain
  ∧ Sim.simulate chain (λ _, true) = Some [true]
  ∧ (apply 0 (World chain [])).1 = Return PyNone
  ∧ Sim.simulate (w_dag (apply 0 (World chain [])).2) (λ _, true) = Some [false].
Proof. split; [apply (bool_decide_unpack _)|]; by vm_compute. Qed.

(** C5. After one run of [apply] on a netlist none of whose gates drives an
    input port, a second sweep adds up to 0 and leaves the netlist as it is:
    every inverter still there has its input wire on an input or output port
    or its output wire on an output port. *)
Theorem second_sweep_is_idle debug1 debug2 d out r d1 out1 out2 :
  inputs_undriven d →
  apply debug1 (World d out) = (Return r, World d1 out1) →
  apply_loop debug2 (get_topo_sorted_gate_id_list d1) 0 (World d1 out2)
    = (Return 0, World d1 out2)
  ∧ apply debug2 (World d1 out2)
    = (Return PyNone,
       World d1 (if 1 <=? debug2 then out2 ++ [SummaryLine 0] else out2))
  ∧ (∀ g x, gates d1 !! g = Some x → gate_func x = "inv1" →
       ∃ i o, head (inputs x) = Some i ∧ head (outputs x) = Some o
         ∧ (is_in_port d1 i = true ∨ is_out_port d1 i = true
            ∨ is_out_port d1 o = true)).
Proof.
  intros Hund Hrun. unfold apply in Hrun.
  apply bind_returns in Hrun as (d0 & s0 & [-> ->]%get_dag_returns & Hrun).
  apply bind_returns in Hrun as (total & [d1' out1'] & Hloop & Hrun).
  apply bind_returns in Hrun as ([] & s2 & [Hd _]%when_print_returns & Hrun).
  unfold ret in Hrun. injection Hrun as <- ->. cbn in Hd. subst d1'.
  apply apply_loop_settles in Hloop as [_ Hset]; [|done|].
  2:{ intros g x Hx _. left. apply elem_of_topo. by exists x. }
  assert (apply_loop debug2 (get_topo_sorted_gate_id_list d1) 0 (World d1 out2)
          = (Return 0, World d1 out2)) as Hidle.
  { apply apply_loop_idle; [|done]. intros g. by rewrite elem_of_topo. }
  split_and!.
  - done.
  - unfold apply. rewrite dag_run. cbn [w_dag].
    erewrite bind_run by exact Hidle.
    erewrite bind_run by apply when_print_run. done.
  - intros g x Hx Hf.
    destruct (Hset g x Hx Hf) as [[]%elem_of_nil|(x' & i & o & Hx' & Hi & Ho & Hp)].
    simplify_eq. exists i, o. split_and!; [done..|].
    unfold touches_port in Hp. cbn in Hp.
    destruct (is_in_port _ i), (is_out_port _ i), (is_out_port _ o);
      cbn in Hp; auto.
Qed.

End NetlistClaims.

(** * The scenarios, run *)

Section Scenarios.
Import Netlist Wf Inv Circuits.

Ltac run_it :=
  first [ by vm_compute | apply (bool_decide_unpack _); by vm_compute ].

(** The inverter on the output port of [boundary] is skipped. *)
Lemma port_skip_changes_nothing_witness :
  run_xform_inv_elimination 2 "N" (World boundary [])
  = (Return 0, World boundary []).
Proof.
  refine (port_skip_changes_nothing 2 "N" (mk "inv1" ["m"] ["z"]) "m" "z"
            (World boundary []) _ _ _ _); run_it.
Defined.



(** The inverter of [undriven] fails the assertion. *)
Lemma assertion_iff_not_one_driver_witness :
  let r := run_xform_inv_elimination 0 "N1" (World undriven []) in
  (r.1 = Raise AssertionError
     ↔ length (get_wire_fanin_gate_ids undriven "d") ≠ 1%nat)
  ∧ (r.1 = Raise AssertionError → w_dag r.2 = undriven).
Proof.
  refine (assertion_iff_not_one_driver 0 "N1" (mk "inv1" ["d"] ["n"]) "d" "n"
            (World undriven []) _ _ _ _); run_it.
Defined.

(** C2 as stated fails: on [standard] the loop adds up to 1 and [apply]
    returns [None]. *)
Lemma apply_returns_none :
  (apply_loop 0 (get_topo_sorted_gate_id_list standard) 0
     (World standard [])).1 = Return 1
  ∧ (apply 0 (World standard [])).1 = Return PyNone
  ∧ (apply 0 (World standard [])).1 ≠ Return (PyInt 1).
Proof. split_and!; [by vm_compute..|]. vm_compute. discriminate. Qed.


Lemma standard_case_rewrite_witness :
  ∃ d' out',
    run_xform_inv_elimination 0 "N1" (World standard []) = (Return 1, World d' out')
    ∧ gates d' !! "N1" = None
    ∧ (∃ xl', gates d' !! "L" = Some xl' ∧ inputs xl' = ["d"] ∧ "d" ∈ inverted xl')
    ∧ Conn "d" "D" "L" ∈ conns d'.
Proof.
  refine (standard_case_rewrite 0 standard [] "N1" (mk "inv1" ["d"] ["n"])
            "d" "n" "D" "L" (mk "buf1" ["n"] ["z"]) _ _ _ _ _ _ _ _ _); run_it.
Defined.


Lemma second_sweep_is_idle_witness :
  let d1 := w_dag (apply 1 (World boundary [])).2 in
  apply_loop 1 (get_topo_sorted_gate_id_list d1) 0 (World d1 [])
    = (Return 0, World d1 [])
  ∧ apply 1 (World d1 []) = (Return PyNone, World d1 [SummaryLine 0])
  ∧ (∀ g x, gates d1 !! g = Some x → gate_func x = "inv1" →
       ∃ i o, head (inputs x) = Some i ∧ head (outputs x) = Some o
         ∧ (is_in_port d1 i = true ∨ is_out_port d1 i = true
            ∨ is_out_port d1 o = true)).
Proof.
  refine (second_sweep_is_idle 1 1 boundary [] PyNone
            (w_dag (apply 1 (World boundary [])).2)
            (w_stdout (apply 1 (World boundary [])).2) [] _ _); run_it.
Defined.

End Scenarios.

(** * Further properties of the pass over any container *)

Section PassExtras.
Context {DAG : Type} `{!Container DAG}.

Implicit Types (w : @world DAG) (g : gate_id) (x : gate).

(** ** What is printed *)

Lemma appends_ret P {A} (a : A) : appends (DAG:=DAG) P (ret a).
Proof. intros w. exists []. by rewrite app_nil_r. Qed.

Lemma appends_raise P {A} e : appends (DAG:=DAG) P (raise (A:=A) e).
Proof. intros w. exists []. by rewrite app_nil_r. Qed.

Lemma appends_bind P {A B} (m : @M DAG A) (k : A → @M DAG B) :
  appends P m → (∀ a, appends P (k a)) → appends P (bind m k).
Proof.
  intros Hm Hk w. destruct (Hm w) as (tr1 & Hout1 & Htr1). unfold bind.
  destruct (m w) as [[a|e] w1]; cbn in *; [|by exists tr1].
  destruct (Hk a w1) as (tr2 & Hout2 & Htr2). exists (tr1 ++ tr2).
  rewrite Hout2, Hout1, app_assoc. split; [done|]. by apply Forall_app.
Qed.

Lemma appends_call P (op : DAG → container_error + DAG) : appends P (call op).
Proof.
  intros w. exists []. rewrite app_nil_r. unfold call.
  by destruct (op (w_dag w)).
Qed.

Lemma appends_node P g : appends P (node g).
Proof.
  intros w. exists []. rewrite app_nil_r. unfold node.
  by destruct (nodes (w_dag w) g).
Qed.

Lemma appends_first P {A} (l : list A) : appends (DAG:=DAG) P (first l).
Proof. destruct l; [apply appends_raise | apply appends_ret]. Qed.

Lemma appends_assert P b : appends (DAG:=DAG) P (assert b).
Proof. destruct b; [apply appends_ret | apply appends_raise]. Qed.

Lemma appends_get_dag P : appends (DAG:=DAG) P get_dag.
Proof. intros w. exists []. by rewrite app_nil_r. Qed.

Lemma appends_when_print (P : line → Prop) (b : bool) l :
  (b = true → P l) → appends (DAG:=DAG) P (when b (print l)).
Proof.
  intros Hl w. destruct b; cbn.
  - exists [l]. split; [done|]. apply Forall_singleton. by apply Hl.
  - exists []. by rewrite app_nil_r.
Qed.

Lemma appends_for_each P {A} (l : list A) (body : A → @M DAG unit) :
  (∀ a, appends P (body a)) → appends P (for_each l body).
Proof.
  intros Hb. induction l as [|a l IH]; [apply appends_ret|].
  by apply appends_bind.
Qed.

Lemma traced_when_print debug l :
  is_trace_line l →
  appends (DAG:=DAG) (λ l, 2 ≤ debug ∧ is_trace_line l)
          (when (2 <=? debug) (print l)).
Proof.
  intros Hl. apply appends_when_print. intros Hb. split; [|done].
  by apply Z.leb_le.
Qed.

Ltac appends_step :=
  first [ apply appends_call | apply appends_node | apply appends_first
        | apply appends_assert | apply appends_get_dag | apply appends_ret
        | apply traced_when_print; done
        | apply appends_for_each; intros ?
        | apply appends_bind; [|intros ?] ].

Lemma appends_reconnect debug i o dr ld :
  appends (λ l, 2 ≤ debug ∧ is_trace_line l) (reconnect debug i o dr ld).
Proof.
  unfold reconnect. apply appends_bind; [appends_step|]. intros xl.
  case_bool_decide; repeat appends_step.
Qed.

Lemma appends_run_xform debug g :
  appends (λ l, 2 ≤ debug ∧ is_trace_line l) (run_xform_inv_elimination debug g).
Proof.
  unfold run_xform_inv_elimination, eliminate.
  do 4 (apply appends_bind; [appends_step|intros ?]).
  destruct (touches_port _ _ _); [appends_step|].
  repeat first [ apply appends_reconnect | appends_step ].
Qed.

Lemma appends_apply_loop debug ids total :
  appends (λ l, 2 ≤ debug ∧ is_trace_line l) (apply_loop debug ids total).
Proof.
  revert total. induction ids as [|g ids IH]; intros total; [appends_step|].
  cbn [apply_loop]. apply appends_bind.
  { unfold is_target_gate. repeat appends_step. }
  intros [|]; [|apply IH].
  apply appends_bind; [apply appends_run_xform|]. intros n. apply IH.
Qed.

(** What [apply] prints: it keeps every line printed before it and adds the
    lines of the per-gate trace, which exist at debug level 2 or more only;
    the summary comes last, once, when the run returns at debug level 1 or
    more, and not at all when the run raises. *)
Theorem apply_output_shape debug w :
  ∃ trace, Forall (λ l, 2 ≤ debug ∧ is_trace_line l) trace
    ∧ match (apply debug w).1 with
      | Raise _ => w_stdout (apply debug w).2 = w_stdout w ++ trace
      | Return r =>
          r = PyNone
          ∧ ∃ total_inv,
              w_stdout (apply debug w).2
              = w_stdout w ++ trace
                ++ (if 1 <=? debug then [SummaryLine total_inv] else [])
      end.
Proof.
  unfold apply, bind at 1, get_dag; cbn.
  destruct (appends_apply_loop debug (get_topo_sorted_gate_id_list (w_dag w))
              0 w) as (trace & Hout & Htrace).
  exists trace. split; [done|]. unfold bind at 1 3 5.
  destruct (apply_loop _ _ _ _) as [[total|e] w1]; cbn in *; [|done].
  unfold bind. rewrite when_print_run. cbn. split; [done|]. exists total.
  rewrite Hout. destruct (1 <=? debug); by rewrite <-?app_assoc, ?app_nil_r.
Qed.

(** Below debug level 1 [apply] prints nothing, whether it returns or
    raises. *)
Theorem apply_is_silent_below_level_one debug w :
  debug < 1 → w_stdout (apply debug w).2 = w_stdout w.
Proof.
  intros Hlevel. unfold apply, bind at 1, get_dag; cbn.
  destruct (appends_apply_loop debug (get_topo_sorted_gate_id_list (w_dag w))
              0 w) as (trace & Hout & Htrace).
  assert (trace = []) as ->.
  { destruct trace as [|l trace]; [done|].
    apply Forall_cons in Htrace as [[? _] _]. lia. }
  rewrite app_nil_r in Hout. unfold bind at 1.
  destruct (apply_loop _ _ _ _) as [[total|e] w1]; cbn in *; [|done].
  unfold bind. rewrite when_print_run. cbn.
  by replace (1 <=? debug) with false by (symmetry; apply Z.leb_gt; lia).
Qed.

(** ** What is raised *)

Lemma raises_only_bind P {A B} (m : @M DAG A) (k : A → @M DAG B) :
  raises_only P m → (∀ a, raises_only P (k a)) → raises_only P (bind m k).
Proof.
  intros Hm Hk w e. specialize (Hm w). unfold bind.
  destruct (m w) as [[a|e'] w1]; cbn in *; [apply Hk|].
  intros [= ->]. by apply Hm.
Qed.

Lemma raises_only_call (op : DAG → container_error + DAG) :
  raises_only edit_error (call op).
Proof.
  intros w e. unfold call. destruct (op _) as [c|d]; [|done].
  intros [= <-]. right. by exists c.
Qed.

Lemma raises_only_node g : raises_only edit_error (node g).
Proof.
  intros w e. unfold node. destruct (nodes _ _); [done|]. intros [= <-]. by left.
Qed.

Lemma raises_only_ret P {A} (a : A) : raises_only (DAG:=DAG) P (ret a).
Proof. by intros w e. Qed.

Lemma raises_only_when_print P b l : raises_only (DAG:=DAG) P (when b (print l)).
Proof. intros w e. by destruct b. Qed.

Lemma raises_only_for_each P {A} (l : list A) (body : A → @M DAG unit) :
  (∀ a, raises_only P (body a)) → raises_only P (for_each l body).
Proof.
  intros Hb. induction l as [|a l IH]; [apply raises_only_ret|].
  by apply raises_only_bind.
Qed.

Lemma raises_only_reconnect debug i o dr ld :
  raises_only edit_error (reconnect debug i o dr ld).
Proof.
  unfold reconnect. apply raises_only_bind; [apply raises_only_node|].
  intros xl. case_bool_decide;
    repeat first [ apply raises_only_call | apply raises_only_when_print
                 | apply raises_only_bind; [|intros ?] | by intros ?? ].
Qed.

Lemma raises_only_rewire debug g i o dr loads :
  raises_only edit_error (rewire debug g i o dr loads).
Proof.
  unfold rewire.
  repeat first [ apply raises_only_call | apply raises_only_ret
               | apply raises_only_for_each; intros ?
               | apply raises_only_reconnect
               | apply raises_only_bind; [|intros ?] ].
Qed.

(** The rewrite of a node raises [IndexError] exactly when the gate has no
    input wire or no output wire, and then the world is untouched: the
    subscripts [[0]] are the only source of that exception, and they come
    before every edit and every print. *)
Theorem index_error_iff_no_pin debug g x w :
  nodes (w_dag w) g = Some x →
  let r := run_xform_inv_elimination debug g w in
  (r.1 = Raise IndexError ↔ inputs x = [] ∨ outputs x = [])
  ∧ (r.1 = Raise IndexError → r.2 = w).
Proof.
  intros Hg. cbn zeta.
  destruct (inputs x) as [|i ins] eqn:Hi.
  { unfold run_xform_inv_elimination.
    rewrite (bind_run _ _ w x w) by (by apply node_run). rewrite Hi. cbn.
    split; [|done]. split; [by left|done]. }
  destruct (outputs x) as [|o outs] eqn:Ho.
  { unfold run_xform_inv_elimination.
    rewrite (bind_run _ _ w x w) by (by apply node_run). rewrite Hi, Ho. cbn.
    split; [|done]. split; [by right|done]. }
  assert (head (inputs x) = Some i) as Hhi by (by rewrite Hi).
  assert (head (outputs x) = Some o) as Hho by (by rewrite Ho).
  assert ((run_xform_inv_elimination debug g w).1 ≠ Raise IndexError) as Hno.
  { destruct (touches_port (w_dag w) i o) eqn:Hp.
    - by rewrite (skip_run debug g x i o w).
    - rewrite (run_xform_unfold debug g x i o w) by done.
      rewrite eliminate_unfold.
      destruct (get_wire_fanin_gate_ids (w_dag w) i) as [|dr [|??]];
        [done| |done].
      intros Hr.
      by destruct (raises_only_rewire _ _ _ _ _ _ _ _ Hr) as [?|[??]]. }
  split; [|done]. split; [done|]. by intros [|].
Qed.

(** ** What is returned *)

Lemma eliminate_returns_one debug g i o w n w' :
  eliminate debug g i o w = (Return n, w') →
  n = 1 ∧ length (get_wire_fanin_gate_ids (w_dag w) i) = 1%nat.
Proof.
  rewrite eliminate_unfold.
  destruct (get_wire_fanin_gate_ids (w_dag w) i) as [|dr [|??]]; [done| |done].
  unfold rewire. intros Hrun.
  do 4 apply bind_returns in Hrun as (? & ? & _ & Hrun).
  unfold ret in Hrun. by simplify_eq.
Qed.

(** A rewrite that returns has found the node with an input and an output
    wire, and returns 0 or 1: 0 with the world untouched when the port check
    holds, 1 when it does not and the input wire has exactly one driver. *)
Theorem rewrite_returns_zero_or_one debug g w n w' :
  run_xform_inv_elimination debug g w = (Return n, w') →
  ∃ x i o, nodes (w_dag w) g = Some x
    ∧ head (inputs x) = Some i ∧ head (outputs x) = Some o
    ∧ ((touches_port (w_dag w) i o = true ∧ n = 0 ∧ w' = w)
       ∨ (touches_port (w_dag w) i o = false ∧ n = 1
          ∧ length (get_wire_fanin_gate_ids (w_dag w) i) = 1%nat)).
Proof.
  intros (x & i & o & Hx & Hi & Ho & Hcase)%run_xform_returns.
  exists x, i, o. split_and!; [done..|].
  destruct Hcase as [?|[Hp [-> ?]%eliminate_returns_one]]; [by left|by right].
Qed.

(** The accumulated total never decreases and grows by at most one per gate
    id of the sweep. *)
Theorem sweep_total_bounds debug ids total w total' w' :
  apply_loop debug ids total w = (Return total', w') →
  total ≤ total' ≤ total + Z.of_nat (length ids).
Proof.
  revert total w. induction ids as [|g ids IH]; intros total w; cbn [apply_loop].
  { unfold ret. intros [= <- _]. cbn. lia. }
  intros Hrun.
  apply bind_returns in Hrun as (b & w1 & _ & Hrun). destruct b.
  - apply bind_returns in Hrun as (n & w2 & Hstep & Hrun).
    apply run_xform_returns in Hstep as (_ & i & o & _ & _ & _ & Hcase).
    apply IH in Hrun. rewrite length_cons.
    destruct Hcase as [(_ & -> & _)|[_ [-> _]%eliminate_returns_one]]; lia.
  - apply IH in Hrun. rewrite length_cons. lia.
Qed.

(** ** How the sweep composes *)

Lemma apply_loop_cons debug g rest total w :
  apply_loop debug (g :: rest) total w
  = bind (visit debug g total) (apply_loop debug rest) w.
Proof.
  cbn [apply_loop]. unfold visit, bind.
  destruct (is_target_gate g w) as [[[|]|e] w1]; [|done..].
  by destruct (run_xform_inv_elimination debug g w1) as [[n|e] w2].
Qed.

Lemma apply_loop_app debug ids1 ids2 total w :
  apply_loop debug (ids1 ++ ids2) total w
  = bind (apply_loop debug ids1 total) (apply_loop debug ids2) w.
Proof.
  revert total w. induction ids1 as [|g ids1 IH]; intros total w; [done|].
  cbn [app apply_loop]. unfold bind.
  destruct (is_target_gate g w) as [[[|]|e] w1]; [|apply IH|done].
  destruct (run_xform_inv_elimination debug g w1) as [[n|e] w2]; [|done].
  apply IH.
Qed.

(** An exception aborts the pass at once.  When the sweep has returned on the
    gate ids before [g] and the visit of [g] raises, [apply] raises that
    exception in the world of the raise: the edits made so far stay, no
    later gate is visited and no summary is printed. *)
Theorem exception_aborts_the_sweep debug w ids1 g ids2 total w1 e w2 :
  get_topo_sorted_gate_id_list (w_dag w) = ids1 ++ g :: ids2 →
  apply_loop debug ids1 0 w = (Return total, w1) →
  visit debug g total w1 = (Raise e, w2) →
  apply debug w = (Raise e, w2).
Proof.
  intros Hids Hbefore Hvisit. unfold apply, bind at 1, get_dag; cbn.
  rewrite Hids. unfold bind at 1.
  rewrite apply_loop_app. rewrite (bind_run _ _ _ _ _ Hbefore).
  rewrite apply_loop_cons. unfold bind at 1. by rewrite Hvisit.
Qed.

(** ** Nothing to eliminate *)

Lemma apply_loop_left_alone debug ids total w :
  (∀ g, g ∈ ids → left_alone (w_dag w) g) →
  apply_loop debug ids total w = (Return total, w).
Proof.
  intros Hids. revert total.
  induction ids as [|g ids IH]; intros total; [done|].
  destruct (Hids g) as (x & Hx & Hskip); [left|].
  cbn [apply_loop]. unfold is_target_gate.
  erewrite bind_run; [|erewrite bind_run by (by apply node_run); done].
  cbn beta. case_bool_decide as Hf.
  - destruct (Hskip Hf) as (i & o & Hi & Ho & Hp).
    erewrite bind_run by (by eapply skip_run).
    rewrite Z.add_0_r. apply IH. intros g' ?. apply Hids. by right.
  - apply IH. intros g' ?. apply Hids. by right.
Qed.

(** When every gate id handed out by the container names a node that is no
    inverter or an inverter that stops at the port check, [apply] returns
    [None] with the DAG untouched; all it does is print a summary of 0 at
    debug level 1 or more. *)
Theorem apply_leaves_alone debug w :
  (∀ g, g ∈ get_topo_sorted_gate_id_list (w_dag w) → left_alone (w_dag w) g) →
  apply debug w
  = (Return PyNone,
     World (w_dag w)
           (if 1 <=? debug then w_stdout w ++ [SummaryLine 0] else w_stdout w)).
Proof.
  intros Hids. unfold apply, bind at 1, get_dag; cbn.
  erewrite bind_run by (by apply apply_loop_left_alone).
  erewrite bind_run by apply when_print_run. done.
Qed.

(** A run of [apply] that returns is a sweep that returned. *)
Lemma apply_returns debug w r w' :
  apply debug w = (Return r, w') →
  r = PyNone
  ∧ ∃ total s,
      apply_loop debug (get_topo_sorted_gate_id_list (w_dag w)) 0 w
        = (Return total, s)
      ∧ w_dag w' = w_dag s.
Proof.
  unfold apply. intros Hrun.
  apply bind_returns in Hrun as (d0 & s0 & [-> ->]%get_dag_returns & Hrun).
  apply bind_returns in Hrun as (total & s & Hloop & Hrun).
  apply bind_returns in Hrun as ([] & s2 & [Hd _]%when_print_returns & Hrun).
  unfold ret in Hrun. injection Hrun as <- <-. split; [done|]. by exists total, s.
Qed.

End PassExtras.

(** * Further properties of the pass on the modelled container *)

Section NetlistExtras.
Import Netlist Inv Keep.

Implicit Types (d : dag) (g dr ld : gate_id) (x : gate) (i o t : wire)
  (c : conn) (out : list line).

Lemma kept_refl x : kept x x.
Proof. by split_and!. Qed.

Lemma kept_trans x1 x2 x3 : kept x1 x2 → kept x2 x3 → kept x1 x3.
Proof.
  intros (? & ? & ? & ?) (? & ? & ? & ?). split_and!; [congruence..|].
  by etrans.
Qed.

Lemma kept_pin_to o t x : kept x (pin_to o t x).
Proof.
  split_and!; [done| |done|]; cbn.
  - unfold rename. by rewrite length_fmap.
  - apply union_subseteq_r.
Qed.

Lemma kept_out_to o t x : kept x (out_to o t x).
Proof.
  split_and!; [done..| |done]; cbn. unfold rename. by rewrite length_fmap.
Qed.

(** Both ends of a reconnection are gates when it starts. *)
Lemma reconnect_ends debug i o dr ld d out d' out' :
  reconnect debug i o dr ld (World d out) = (Return tt, World d' out') →
  is_Some (gates d !! dr) ∧ is_Some (gates d !! ld).
Proof.
  unfold reconnect. intros Hrun. step_returns Hrun. rename x into xl.
  simpl in Hstep. split; [|by exists xl]. case_bool_decide as Hin.
  - step_returns Hrun. destruct w as [d0 out0]; simpl in *; subst d0.
    step_returns Hrun. simpl in Hrun.
    step_returns Hrun. step_returns Hrun.
    apply add_wire_inv in Hstep1 as (_ & Hdr & _).
    destruct w as [d1 ?]. cbn in *. unfold replace_output_wire in Hstep0.
    injection Hstep0 as <-. cbn in Hdr. by apply lookup_alter_is_Some in Hdr.
  - step_returns Hrun. by apply add_wire_inv in Hstep0 as (_ & Hdr & _).
Qed.

(** What one reconnection keeps of the netlist. *)
Lemma reconnect_preserves debug i o dr ld d out d' out' :
  reconnect debug i o dr ld (World d out) = (Return tt, World d' out') →
  (∀ g, is_Some (gates d' !! g) ↔ is_Some (gates d !! g))
  ∧ in_ports d' = in_ports d ∧ out_ports d' = out_ports d
  ∧ (∀ g x', gates d' !! g = Some x' → ∃ x, gates d !! g = Some x ∧ kept x x')
  ∧ (attached d → attached d').
Proof.
  intros Hrun.
  pose proof (reconnect_keeps _ _ _ _ _ _ _ _ _ Hrun) as [Hdom _].
  pose proof (reconnect_ends _ _ _ _ _ _ _ _ _ Hrun) as [Hdr Hld].
  apply reconnect_inv in Hrun as (xl & t & Hxl & Hcase & Hin & Hout & _).
  split_and!; [done..| |].
  - intros g x'.
    destruct Hcase as [(_ & _ & -> & _)|(_ & _ & -> & _)].
    + rewrite lookup_alter_Some.
      intros [(<- & x1 & Hx1 & ->)|[_ Hx']].
      * exists x1. split; [done|]. apply kept_pin_to.
      * exists x'. split; [done|]. apply kept_refl.
    + assert (∀ g' x1, alter (out_to o t) dr (gates d) !! g' = Some x1 →
                ∃ x, gates d !! g' = Some x ∧ kept x x1) as Hdriver.
      { intros g' x1. rewrite lookup_alter_Some.
        intros [(<- & x0 & Hx0 & ->)|[_ Hx1]].
        - exists x0. split; [done|]. apply kept_out_to.
        - exists x1. split; [done|]. apply kept_refl. }
      rewrite lookup_alter_Some.
      intros [(<- & x1 & Hx1 & ->)|[_ Hx']]; [|by apply Hdriver].
      destruct (Hdriver _ _ Hx1) as (x & Hx & Hkept). exists x.
      split; [done|]. eapply kept_trans; [done|]. apply kept_pin_to.
  - unfold attached. intros Hatt.
    assert (Forall (λ c, is_Some (gates d' !! c_driver c)
                         ∧ is_Some (gates d' !! c_load c)) (conns d)) as Hold.
    { eapply Forall_impl; [exact Hatt|]. intros c [??]. by rewrite !Hdom. }
    destruct Hcase as [(_ & _ & _ & ->)|(_ & _ & _ & ->)];
      rewrite Forall_app, Forall_singleton; cbn; rewrite !Hdom.
    + by split.
    + split; [|done]. apply Forall_fmap.
      eapply Forall_impl; [exact Hold|]. intros c Hc. unfold compose, rename_conn.
      by case_decide.
Qed.

(** What the edits of one rewrite keep: all gates but the inverter, the
    ports, the label, pin counts and marks of every gate left, and the ends
    of the connections. *)
Lemma eliminate_preserves debug d g i o out n d' out' :
  eliminate debug g i o (World d out) = (Return n, World d' out') →
  gates_but (λ g', g' = g) d d'
  ∧ in_ports d' = in_ports d ∧ out_ports d' = out_ports d
  ∧ (∀ g' x', gates d' !! g' = Some x' →
       ∃ x, gates d !! g' = Some x ∧ kept x x')
  ∧ (attached d → attached d').
Proof.
  rewrite eliminate_unfold. cbn.
  destruct (get_wire_fanin_gate_ids d i) as [|dr [|??]]; [done| |done].
  set (s0 := announced debug g (World d out)).
  assert (w_dag s0 = d) as Hs0 by apply announced_dag.
  unfold rewire. intros Hrun.
  apply bind_returns in Hrun as ([] & s1 & Hstep1 & Hrun).
  apply call_returns in Hstep1 as [Hstep1 _].
  apply remove_wire_inv in Hstep1 as [Hd1 _]. rewrite Hs0 in Hd1.
  apply bind_returns in Hrun as ([] & s2 & Hstep2 & Hrun).
  apply (for_each_returns
           (λ s : @world dag, gates (w_dag s) = gates d
              ∧ in_ports (w_dag s) = in_ports d
              ∧ out_ports (w_dag s) = out_ports d
              ∧ ∀ c, c ∈ conns (w_dag s) → c ∈ conns d)) in Hstep2
    as (Hg2 & Hin2 & Hout2 & Hcs2).
  2:{ intros ld sa [] sb _ (? & ? & ? & Hsub) Hcall.
      apply call_returns in Hcall as [Hcall _].
      apply remove_wire_inv in Hcall as [-> _]. cbn. split_and!; [done..|].
      intros c [_ ?]%list_elem_of_filter. by apply Hsub. }
  2:{ rewrite Hd1. cbn. split_and!; [done..|].
      by intros c [_ ?]%list_elem_of_filter. }
  apply bind_returns in Hrun as ([] & s3 & Hstep3 & Hrun).
  apply call_returns in Hstep3 as [Hstep3 _].
  apply remove_gate_inv in Hstep3 as [Hd3 Huntouched].
  apply bind_returns in Hrun as ([] & s4 & Hstep4 & Hrun).
  unfold ret in Hrun. injection Hrun as <- ->.
  apply (for_each_returns
           (λ s : @world dag,
              gates_but (λ g', g' = g) d (w_dag s)
              ∧ in_ports (w_dag s) = in_ports d
              ∧ out_ports (w_dag s) = out_ports d
              ∧ (∀ g' x', gates (w_dag s) !! g' = Some x' →
                   ∃ x, gates d !! g' = Some x ∧ kept x x')
              ∧ (attached d → attached (w_dag s)))) in Hstep4; [done| |].
  - intros ld [da outa] u [db outb] _ (Hdom & Hin & Hout & Hkept & Hatt) Hstep.
    destruct u. cbn in *.
    apply reconnect_preserves in Hstep as (Hdom' & Hin' & Hout' & Hkept' & Hatt').
    split_and!; [|congruence..| |tauto].
    + intros g'. etrans; [apply Hdom'|apply Hdom].
    + intros g' x' Hx'. destruct (Hkept' g' x' Hx') as (x1 & Hx1 & Hk1).
      destruct (Hkept g' x1 Hx1) as (x & Hx & Hk). exists x.
      split; [done|]. by eapply kept_trans.
  - rewrite Hd3. unfold with_gates. cbn. split_and!; [|done..| |].
    + intros g'. cbn. rewrite Hg2, lookup_delete_is_Some.
      split; intros [??]; by split.
    + intros g' x'. rewrite Hg2. intros [_ Hx']%lookup_delete_Some. exists x'.
      split; [done|]. apply kept_refl.
    + unfold attached. cbn. rewrite Hg2. intros Hatt. rewrite Forall_forall in Hatt.
      apply Forall_forall. intros c Hc. rewrite !lookup_delete_is_Some.
      destruct (Hatt c (Hcs2 c Hc)) as [??]. split_and!; try done.
      * intros Heq. apply Huntouched, Exists_exists. exists c.
        split; [done|]. by left.
      * intros Heq. apply Huntouched, Exists_exists. exists c.
        split; [done|]. by right.
Qed.

Lemma gates_but_size d d' g :
  gates_but (λ g', g' = g) d d' → is_Some (gates d !! g) →
  size (gates d) = S (size (gates d')).
Proof.
  unfold gates_but. intros Hbut Hg.
  assert (dom (gates d) = {[g]} ∪ dom (gates d')) as Hdom.
  { apply set_eq. intros g'. rewrite elem_of_union, elem_of_singleton.
    rewrite !elem_of_dom, Hbut. destruct (decide (g' = g)) as [->|]; tauto. }
  rewrite <-(size_dom (gates d)), <-(size_dom (gates d')), Hdom.
  rewrite size_union, size_singleton; [done|].
  apply disjoint_singleton_l. rewrite elem_of_dom, Hbut. tauto.
Qed.

(** What a sweep that returns keeps of the netlist it started on. *)
Lemma sweep_preserves debug ids total d out total' d' out' :
  apply_loop debug ids total (World d out) = (Return total', World d' out') →
  (∀ g, is_Some (gates d' !! g) → is_Some (gates d !! g))
  ∧ (∀ g, g ∉ ids → is_Some (gates d !! g) → is_Some (gates d' !! g))
  ∧ Z.of_nat (size (gates d)) = Z.of_nat (size (gates d')) + (total' - total)
  ∧ in_ports d' = in_ports d ∧ out_ports d' = out_ports d
  ∧ (∀ g x', gates d' !! g = Some x' → ∃ x, gates d !! g = Some x ∧ kept x x')
  ∧ (attached d → attached d').
Proof.
  revert total d out. induction ids as [|g ids IH]; intros total d out.
  { cbn. unfold ret. intros [= <- <- <-]. split_and!; try done; [lia|].
    intros g x' ?. exists x'. split; [done|]. apply kept_refl. }
  cbn [apply_loop]. intros Hrun.
  apply bind_returns in Hrun as (b & s1 & Htarget & Hrun).
  apply is_target_returns in Htarget as (x & Hx & -> & ->). cbn in Hx.
  assert (∀ g', g' ∉ g :: ids → g' ≠ g ∧ g' ∉ ids) as Hnotin.
  { intros g' Hg'. rewrite not_elem_of_cons in Hg'. tauto. }
  case_bool_decide as Hf.
  - apply bind_returns in Hrun as (n & [d1 out1] & Hstep & Hrun).
    apply IH in Hrun as (Hsub & Hkeep & Hsize & Hin & Hout & Hkept & Hatt).
    apply run_xform_returns in Hstep
      as (x1 & i & o & Hx1 & _ & _ & [(_ & -> & Hsame)|(_ & Helim)]).
    + injection Hsame as <- <-. split_and!; try done; [|lia].
      intros g' [_ ?]%Hnotin. by apply Hkeep.
    + pose proof (eliminate_returns_one _ _ _ _ _ _ _ Helim) as [-> _].
      apply eliminate_preserves
        in Helim as (Hbut & Hin1 & Hout1 & Hkept1 & Hatt1).
      pose proof (gates_but_size d d1 g Hbut (mk_is_Some _ _ Hx)) as Hsize1.
      split_and!; [| |lia|congruence..| |tauto].
      * intros g' Hg'. by apply Hsub, Hbut in Hg' as [_ ?].
      * intros g' [? ?]%Hnotin Hg'. apply Hkeep; [done|]. by apply Hbut.
      * intros g' x' Hx'. destruct (Hkept g' x' Hx') as (x2 & Hx2 & Hk2).
        destruct (Hkept1 g' x2 Hx2) as (x0 & Hx0 & Hk0). exists x0.
        split; [done|]. by eapply kept_trans.
  - apply IH in Hrun as (Hsub & Hkeep & Hsize & Hin & Hout & Hkept & Hatt).
    split_and!; try done. intros g' [_ ?]%Hnotin. by apply Hkeep.
Qed.

(** The accumulated total counts deleted gates: a sweep that returns leaves
    exactly as many gates fewer as it has added to the total, and adds
    none. *)
Theorem sweep_counts_deleted_gates debug ids total d out total' d' out' :
  apply_loop debug ids total (World d out) = (Return total', World d' out') →
  Z.of_nat (size (gates d)) = Z.of_nat (size (gates d')) + (total' - total)
  ∧ ∀ g, is_Some (gates d' !! g) → is_Some (gates d !! g).
Proof. intros (? & _ & ? & _)%sweep_preserves. by split. Qed.

(** The sweep never deletes a gate it has still to visit: when it has
    returned on a first part of the gate ids handed out by the container,
    every id of the rest is still a node, so the lookup of the next gate
    cannot fail. *)
Theorem sweep_keeps_gates_to_visit debug ids1 ids2 total d out total1 d1 out1 :
  get_topo_sorted_gate_id_list d = ids1 ++ ids2 →
  apply_loop debug ids1 total (World d out) = (Return total1, World d1 out1) →
  ∀ g, g ∈ ids2 → is_Some (gates d1 !! g).
Proof.
  intros Hids (_ & Hkeep & _)%sweep_preserves g Hg.
  assert (NoDup (ids1 ++ ids2)) as Hnd.
  { rewrite <-Hids, topo_exactly_once. apply NoDup_fst_map_to_list. }
  apply NoDup_app in Hnd as (_ & Hdisj & _). apply Hkeep.
  - intros Hg1. by apply (Hdisj g).
  - apply elem_of_topo. rewrite Hids. apply elem_of_app. by right.
Qed.

(** A run of [apply] that returns leaves the ports as they were, and every
    gate left is a gate of the netlist it started on, with the same function
    label, as many input and output pins, and every invert-on-input mark it
    had: the pass adds no gate, relabels none, and takes no pin and no mark
    away. *)
Theorem pass_keeps_labels_pins_marks debug d out r d' out' :
  apply debug (World d out) = (Return r, World d' out') →
  in_ports d' = in_ports d ∧ out_ports d' = out_ports d
  ∧ ∀ g x', gates d' !! g = Some x' → ∃ x, gates d !! g = Some x ∧ kept x x'.
Proof.
  intros (_ & total & [d1 out1] & Hloop & Hd)%apply_returns. cbn in *. subst d1.
  by apply sweep_preserves in Hloop as (_ & _ & _ & ? & ? & ? & _).
Qed.

(** A run of [apply] that returns on a netlist whose connections all join
    gates of the netlist ends on such a netlist: no connection is left
    hanging on a deleted inverter. *)
Theorem pass_keeps_connections_attached debug d out r d' out' :
  attached d →
  apply debug (World d out) = (Return r, World d' out') →
  attached d'.
Proof.
  intros Hatt (_ & total & [d1 out1] & Hloop & Hd)%apply_returns.
  cbn in *. subst d1.
  apply sweep_preserves in Hloop as (_ & _ & _ & _ & _ & _ & Hkeep). auto.
Qed.

End NetlistExtras.

(** * The further properties, run *)

Section ExtraScenarios.
Import Netlist Wf Inv Keep Circuits Corners.

Ltac run_it :=
  first [ by vm_compute | apply (bool_decide_unpack _); by vm_compute ].

(** At debug level 0 the pass over [standard] prints nothing. *)
Lemma apply_is_silent_below_level_one_witness :
  w_stdout (apply 0 (World standard [RemoveInvLine "earlier"])).2
  = [RemoveInvLine "earlier"].
Proof.
  refine (apply_is_silent_below_level_one 0
            (World standard [RemoveInvLine "earlier"]) _).
  lia.
Defined.

(** The inverter of [no_input] has no input wire. *)
Lemma index_error_iff_no_pin_witness :
  ((run_xform_inv_elimination 2 "N1" (World no_input [])).1 = Raise IndexError
     ↔ inputs (mk "inv1" [] ["n"]) = [] ∨ outputs (mk "inv1" [] ["n"]) = [])
  ∧ ((run_xform_inv_elimination 2 "N1" (World no_input [])).1 = Raise IndexError
     → (run_xform_inv_elimination 2 "N1" (World no_input [])).2
       = World no_input []).
Proof.
  refine (index_error_iff_no_pin 2 "N1" (mk "inv1" [] ["n"])
            (World no_input []) _).
  run_it.
Defined.

(** The rewrite of the inverter of [standard] returns 1. *)
Lemma rewrite_returns_zero_or_one_witness :
  ∃ x i o, gates standard !! "N1" = Some x
    ∧ head (inputs x) = Some i ∧ head (outputs x) = Some o
    ∧ ((touches_port standard i o = true ∧ 1 = 0
        ∧ (run_xform_inv_elimination 2 "N1" (World standard [])).2
          = World standard [])
       ∨ (touches_port standard i o = false ∧ 1 = 1
          ∧ length (get_wire_fanin_gate_ids standard i) = 1%nat)).
Proof.
  refine (rewrite_returns_zero_or_one 2 "N1" (World standard []) 1
            (run_xform_inv_elimination 2 "N1" (World standard [])).2 _).
  run_it.
Defined.

(** The sweep over the four gates of [chain] ends on a total of 2. *)
Lemma sweep_total_bounds_witness :
  0 ≤ 2 ≤ 0 + Z.of_nat (length ["D"; "N1"; "N2"; "L"]).
Proof.
  refine (sweep_total_bounds 0 ["D"; "N1"; "N2"; "L"] 0 (World chain []) 2
            (apply_loop 0 ["D"; "N1"; "N2"; "L"] 0 (World chain [])).2 _).
  run_it.
Defined.

(** In [late_failure] the sweep eliminates [M], reaches [N] after four more
    gates and fails its assertion; [P] is never visited and the summary is
    not printed. *)
Lemma exception_aborts_the_sweep_witness :
  apply 2 (World late_failure [])
  = (Raise AssertionError,
     World (w_dag (apply_loop 2 ["F"; "D"; "M"; "L"; "E"] 0
                     (World late_failure [])).2)
           [RemoveInvLine "M"; RemoveInvLine "N"]).
Proof.
  refine (exception_aborts_the_sweep 2 (World late_failure [])
            ["F"; "D"; "M"; "L"; "E"] "N" ["P"] 1
            (apply_loop 2 ["F"; "D"; "M"; "L"; "E"] 0 (World late_failure [])).2
            AssertionError
            (World (w_dag (apply_loop 2 ["F"; "D"; "M"; "L"; "E"] 0
                             (World late_failure [])).2)
                   [RemoveInvLine "M"; RemoveInvLine "N"])
            _ _ _); run_it.
Defined.

(** The only inverter of [port_inverter] drives the output port. *)
Lemma apply_leaves_alone_witness :
  apply 1 (World port_inverter [])
  = (Return PyNone, World port_inverter [SummaryLine 0]).
Proof.
  refine (apply_leaves_alone 1 (World port_inverter []) _).
  intros g Hg.
  assert (g = "D" ∨ g = "N") as [-> | ->].
  { vm_compute in Hg. inversion Hg as [|? ? ? Hg']; [by left|].
    inversion Hg' as [|? ? ? Hg'']; [by right|]. inversion Hg''. }
  - exists (mk "buf1" ["a"] ["d"]). split; [run_it|]. intros Hf. by vm_compute in Hf.
  - exists (mk "inv1" ["d"] ["z"]). split; [run_it|]. intros _.
    exists "d", "z". split_and!; run_it.
Defined.

(** The sweep over [chain] deletes its two inverters. *)
Lemma sweep_counts_deleted_gates_witness :
  Z.of_nat (size (gates chain))
  = Z.of_nat (size (gates (w_dag (apply_loop 0 ["D"; "N1"; "N2"; "L"] 0
                                   (World chain [])).2))) + (2 - 0)
  ∧ ∀ g, is_Some (gates (w_dag (apply_loop 0 ["D"; "N1"; "N2"; "L"] 0
                                  (World chain [])).2) !! g) →
         is_Some (gates chain !! g).
Proof.
  refine (sweep_counts_deleted_gates 0 ["D"; "N1"; "N2"; "L"] 0 chain [] 2
            (w_dag (apply_loop 0 ["D"; "N1"; "N2"; "L"] 0 (World chain [])).2)
            [] _).
  run_it.
Defined.

(** After the first inverter of [chain] is gone, the second is still there to
    be visited. *)
Lemma sweep_keeps_gates_to_visit_witness :
  is_Some (gates (w_dag (apply_loop 2 ["D"; "N1"] 0 (World chain [])).2)
             !! "N2").
Proof.
  refine (sweep_keeps_gates_to_visit 2 ["D"; "N1"] ["N2"; "L"] 0 chain [] 1
            (w_dag (apply_loop 2 ["D"; "N1"] 0 (World chain [])).2)
            [RemoveInvLine "N1"] _ _ "N2" _); run_it.
Defined.

(** The pass over [conflict]. *)
Lemma pass_keeps_labels_pins_marks_witness :
  in_ports (w_dag (apply 0 (World conflict [])).2) = in_ports conflict
  ∧ out_ports (w_dag (apply 0 (World conflict [])).2) = out_ports conflict
  ∧ ∀ g x', gates (w_dag (apply 0 (World conflict [])).2) !! g = Some x' →
      ∃ x, gates conflict !! g = Some x ∧ kept x x'.
Proof.
  refine (pass_keeps_labels_pins_marks 0 conflict [] PyNone
            (w_dag (apply 0 (World conflict [])).2) [] _).
  run_it.
Defined.

Lemma pass_keeps_connections_attached_witness :
  attached (w_dag (apply 0 (World double_conflict [])).2).
Proof.
  refine (pass_keeps_connections_attached 0 double_conflict [] PyNone
            (w_dag (apply 0 (World double_conflict [])).2) [] _ _).
  - unfold attached. run_it.
  - run_it.
Defined.

End ExtraScenarios.
